(** * AJAXSpider: a shallow embedding of [crawl_ajax.py]

    The crawler keeps three pieces of shared state on the spider object
    (the [visited] set, the [results] list and an unbounded [asyncio.Queue])
    and drains the queue with a pool of cooperatively scheduled worker tasks.

    The development follows the file top-down:
    - the data the code manipulates (methods, responses, result records);
    - the [asyncio.Queue] counters the termination test relies on;
    - [extract_links] / [is_valid] over the [urllib.parse] and [bs4] calls,
      which are taken as parameters of the model;
    - [process_url], split at its suspension points;
    - the worker pool as a labelled transition system whose steps are the
      atomic segments between two [await]s;
    - invariants of every execution, and concrete executions on small sites.

    Left out: the calls to the logger and [save_results], which touch none
    of the three pieces of state, and the cancellation of the workers,
    which happens after [queue.join()] has returned. *)

From stdpp Require Import gmap strings list sets.
From Stdlib Require Import ZArith Lia Ascii.

Set Default Proof Using "Type".
Open Scope string_scope.
Open Scope Z_scope.
Open Scope list_scope.

(** ** Data *)

(** The six verbs of [methods] in [process_url], in the order of the list. *)
Inductive Method := GET | POST | PUT | DELETE | HEAD | OPTIONS.

#[global] Instance Method_eq_dec : EqDecision Method.
Proof. solve_decision. Defined.

Definition methods : list Method := [GET; POST; PUT; DELETE; HEAD; OPTIONS].

Definition method_name (m : Method) : string :=
  match m with
  | GET => "GET" | POST => "POST" | PUT => "PUT"
  | DELETE => "DELETE" | HEAD => "HEAD" | OPTIONS => "OPTIONS"
  end.

(** Response headers: an ordered multi-map from names to values. *)
Definition Headers := list (string * string).

(** What [session.request] hands back when nothing raises. *)
Record Response := mkResponse {
  status : Z;
  headers : Headers;
  body : string
}.

(** One dictionary appended to [self.results]. *)
Record Outcome := mkOutcome {
  o_url : string;
  o_method : Method;
  o_status : Z;
  o_headers : Headers
}.

(** A parsed element: its name and its attributes (a dict: every name
    occurs once). *)
Record Tag := mkTag {
  tag_name : string;
  tag_attrs : list (string * string)
}.

(** The six components of [urlparse]'s result. *)
Record ParseResult := mkParseResult {
  scheme : string;
  netloc : string;
  path : string;
  params : string;
  query : string;
  fragment : string
}.

(** ** Strings *)

(** [needle in hay] on Python strings. *)
Fixpoint contains (needle hay : string) : bool :=
  String.prefix needle hay ||
  match hay with
  | EmptyString => false
  | String _ rest => contains needle rest
  end.

Definition lower_ascii (c : ascii) : ascii :=
  let n := nat_of_ascii c in
  if (Nat.leb 65 n && Nat.leb n 90)%bool then ascii_of_nat (n + 32) else c.

Fixpoint lower (s : string) : string :=
  match s with
  | EmptyString => EmptyString
  | String c rest => String (lower_ascii c) (lower rest)
  end.

(** Truthiness of a Python string. *)
Definition truthy (s : string) : bool :=
  match s with EmptyString => false | String _ _ => true end.

(** [headers.get(name, default)] on the case-insensitive multi-map of an
    aiohttp response: the first value stored under [name], whatever its
    capitalisation. *)
Fixpoint headers_get (h : Headers) (name default : string) : string :=
  match h with
  | [] => default
  | (k, v) :: rest =>
      if String.eqb (lower k) (lower name) then v else headers_get rest name default
  end.

(** [tag.get(attr)]: [None] when the attribute is absent. *)
Fixpoint tag_get (attrs : list (string * string)) (attr : string) : option string :=
  match attrs with
  | [] => None
  | (k, v) :: rest => if String.eqb k attr then Some v else tag_get rest attr
  end.

(** ** The work queue *)

(** [asyncio.Queue()] with no size bound: the FIFO of items and the
    [_unfinished_tasks] counter that [join] waits on. *)
Module Queue.

Record t := mk {
  items : list (string * Z);
  unfinished_tasks : Z
}.

Definition empty : t := mk [] 0.

(** [put_nowait] (and [put], which never suspends on an unbounded queue):
    append the item and count one more unfinished task. *)
Definition put (q : t) (item : string * Z) : t :=
  mk (items q ++ [item]) (unfinished_tasks q + 1).

(** [get]: the oldest item; [None] stands for the caller being suspended. *)
Definition get (q : t) : option ((string * Z) * t) :=
  match items q with
  | [] => None
  | item :: rest => Some (item, mk rest (unfinished_tasks q))
  end.

(** [task_done]: [None] stands for the [ValueError] raised when it is called
    more often than items were put. *)
Definition task_done (q : t) : option t :=
  if unfinished_tasks q <=? 0 then None
  else Some (mk (items q) (unfinished_tasks q - 1)).

(** [join] returns as soon as no task is unfinished. *)
Definition join_returns (q : t) : bool := unfinished_tasks q =? 0.

End Queue.

(** ** The spider object *)

Record Spider := mkSpider {
  start_url : string;
  max_depth : Z;
  concurrency : Z;
  visited : gset string;
  results : list Outcome;
  queue : Queue.t
}.

(** [AJAXSpider.__init__]: the fields are stored as given and the seed is
    queued at depth 0. *)
Definition init (start : string) (depth_limit workers : Z) : Spider :=
  mkSpider start depth_limit workers ∅ [] (Queue.put Queue.empty (start, 0)).

Definition set_visited (self : Spider) (v : gset string) : Spider :=
  mkSpider (start_url self) (max_depth self) (concurrency self)
           v (results self) (queue self).

Definition set_results (self : Spider) (r : list Outcome) : Spider :=
  mkSpider (start_url self) (max_depth self) (concurrency self)
           (visited self) r (queue self).

Definition set_queue (self : Spider) (q : Queue.t) : Spider :=
  mkSpider (start_url self) (max_depth self) (concurrency self)
           (visited self) (results self) q.

(** ** A small web for concrete runs

    Stand-ins for the library calls, exact on the addresses and documents
    used below: absolute or root-relative references, and documents that
    are a sequence of start tags whose attribute values are written between
    single quotes. *)
Module Web.

(** [s.split(c, 1)]: the text before and after the first [c], when there is
    one. *)
Fixpoint split_first (c : ascii) (s : string) : option (string * string) :=
  match s with
  | EmptyString => None
  | String a rest =>
      if Ascii.eqb a c then Some (EmptyString, rest)
      else '(before, after) ← split_first c rest; Some (String a before, after)
  end.

Definition before (c : ascii) (s : string) : string :=
  match split_first c s with Some (b, _) => b | None => s end.

Definition after (c : ascii) (s : string) : string :=
  match split_first c s with Some (_, a) => a | None => EmptyString end.

Definition drop_prefix (p s : string) : option string :=
  if String.prefix p s
  then Some (String.substring (String.length p) (String.length s - String.length p) s)
  else None.

(** scheme ":" "//" netloc path "?" query "#" fragment *)
Definition urlsplit (url : string) : ParseResult :=
  let '(scheme, rest) :=
    match split_first ":" url with
    | Some (s, r) => (lower s, r)
    | None => (EmptyString, url)
    end in
  let fragment := after "#" rest in
  let rest := before "#" rest in
  let query := after "?" rest in
  let rest := before "?" rest in
  match drop_prefix "//" rest with
  | Some hier =>
      let netloc := before "/" hier in
      let path := match split_first "/" hier with
                  | Some (_, p) => String "/" p
                  | None => EmptyString
                  end in
      mkParseResult scheme netloc path EmptyString query fragment
  | None => mkParseResult scheme EmptyString rest EmptyString query fragment
  end.

(** An opening bracket that is not closed in the host is refused
    ([ValueError: Invalid IPv6 URL]). *)
Definition urlparse (url : string) : option ParseResult :=
  let p := urlsplit url in
  if contains "[" (netloc p) && negb (contains "]" (netloc p)) then None
  else Some p.

Definition urldefrag (url : string) : option (string * string) :=
  _ ← urlparse url;
  Some (before "#" url, after "#" url).

(** A reference with a scheme stands for itself; one that starts with a
    slash replaces the path of the base. *)
Definition urljoin (base reference : string) : option string :=
  b ← urlparse base;
  r ← urlparse reference;
  Some (if truthy (scheme r) then reference
        else scheme b +:+ "://" +:+ netloc b +:+ reference).

(** A scanner for start tags: [<name key='value' ...>]. *)
Inductive Mode :=
| Text                                   (* outside a tag *)
| Name (name : string)                   (* reading the element name *)
| Attrs (tag : Tag)                      (* between two attributes *)
| Key (tag : Tag) (key : string)         (* reading an attribute name *)
| Value (tag : Tag) (key value : string) (* inside the quotes *)
| Closing.                               (* inside an end tag *)

Definition snoc (s : string) (c : ascii) : string := s +:+ String c EmptyString.

Definition with_attr (tag : Tag) (key value : string) : Tag :=
  mkTag (tag_name tag) (tag_attrs tag ++ [(key, value)]).

Fixpoint scan (mode : Mode) (doc : string) : list Tag :=
  match doc with
  | EmptyString => []
  | String c rest =>
      match mode with
      | Text => if Ascii.eqb c "<" then scan (Name EmptyString) rest else scan Text rest
      | Name name =>
          if Ascii.eqb c "/" then scan Closing rest
          else if Ascii.eqb c ">" then mkTag name [] :: scan Text rest
          else if Ascii.eqb c " " then scan (Attrs (mkTag name [])) rest
          else scan (Name (snoc name c)) rest
      | Attrs tag =>
          if Ascii.eqb c ">" then tag :: scan Text rest
          else if Ascii.eqb c " " then scan (Attrs tag) rest
          else scan (Key tag (String c EmptyString)) rest
      | Key tag key =>
          if Ascii.eqb c "=" then scan (Key tag key) rest
          else if Ascii.eqb c "'" then scan (Value tag key EmptyString) rest
          else scan (Key tag (snoc key c)) rest
      | Value tag key value =>
          if Ascii.eqb c "'" then scan (Attrs (with_attr tag key value)) rest
          else scan (Value tag key (snoc value c)) rest
      | Closing => if Ascii.eqb c ">" then scan Text rest else scan Closing rest
      end
  end.

Definition BeautifulSoup (html : string) : option (list Tag) :=
  Some (scan Text html).

(** A site: the document served at each address. A GET is answered with
    the document, the other methods with 405 and the same document; an
    address outside the site cannot be connected to. *)
Definition Site := list (string * string).

Fixpoint page (site : Site) (url : string) : option string :=
  match site with
  | [] => None
  | (u, html) :: rest => if String.eqb u url then Some html else page rest url
  end.

Definition request (site : Site) (url : string) (method : Method) : option Response :=
  html ← page site url;
  Some (mkResponse (if bool_decide (method = GET) then 200 else 405)
                   [("Content-Type", "text/html; charset=utf-8")] html).

(** Two pages of the seed both link to the same third page. *)
Definition kite : Site :=
  [("http://s/", "<a href='/a'>a</a><a href='/c'>c</a>");
   ("http://s/a", "<a href='/b'>b</a>");
   ("http://s/c", "<a href='http://s/b#top'>b</a>");
   ("http://s/b", "<p>leaf</p>")].

(** A page is two links from the seed on one side and three on the
    other, and links to a last page. *)
Definition diamond : Site :=
  [("http://s/", "<a href='/a'>a</a><a href='/c'>c</a>");
   ("http://s/a", "<a href='/d'>d</a>");
   ("http://s/c", "<a href='/b'>b</a>");
   ("http://s/d", "<a href='/b'>b</a>");
   ("http://s/b", "<a href='/e'>e</a>");
   ("http://s/e", "<p>leaf</p>")].

(** A page with a reference [urljoin] refuses. *)
Definition broken : Site :=
  [("http://s/", "<a href='/a'>a</a><a href='http://[s/x'>x</a>")].

End Web.

Section Crawler.

(** The calls into [urllib.parse], [bs4] and [aiohttp]. The first four can
    raise ([ValueError] on a malformed address, a parser error): [None]
    stands for the exception. *)

(** [urljoin(base, reference)]. *)
Variable urljoin : string → string → option string.
(** [urldefrag(url)]: the url without its fragment, and the fragment. *)
Variable urldefrag : string → option (string * string).
(** [urlparse(url)]. *)
Variable urlparse : string → option ParseResult.
(** [BeautifulSoup(html, 'html.parser')]: the elements of the document, in
    document order. *)
Variable BeautifulSoup : string → option (list Tag).
(** [session.request(method, url)] together with the read of the body:
    [None] when either raises. Every address is requested at most once per
    method in a run, so a function of the two is all a run can observe. *)
Variable request : string → Method → option Response.

(** *** [is_valid] *)
Definition is_valid (url : string) : option bool :=
  parsed ← urlparse url;
  Some (bool_decide (scheme parsed ∈ ["http"; "https"])).

(** *** [extract_links] *)

(** [soup.find_all(names)]. *)
Definition find_all (names : list string) (soup : list Tag) : list Tag :=
  filter (λ tag, tag_name tag ∈ names) soup.

(** The attribute read from a tag. *)
Definition link_attr (tag : Tag) : string :=
  if bool_decide (tag_name tag ∈ ["a"; "link"]) then "href" else "src".

(** The body of the [for tag in ...] loop, [links] being the set built so
    far. *)
Definition extract_link (base_url : string) (links : gset string) (tag : Tag)
  : option (gset string) :=
  match tag_get (tag_attrs tag) (link_attr tag) with
  | Some link =>
      if truthy link then
        full_url ← urljoin base_url link;
        '(parsed, _) ← urldefrag full_url;
        valid ← is_valid parsed;
        Some (if valid : bool then {[ parsed ]} ∪ links else links)
      else Some links
  | None => Some links
  end.

Fixpoint extract_from (base_url : string) (links : gset string) (tags : list Tag)
  : option (gset string) :=
  match tags with
  | [] => Some links
  | tag :: tags =>
      links ← extract_link base_url links tag;
      extract_from base_url links tags
  end.

Definition extract_links (html base_url : string) : option (gset string) :=
  soup ← BeautifulSoup html;
  extract_from base_url ∅ (find_all ["a"; "link"; "script"; "img"] soup).

(** *** [fetch] *)

(** The triple [(status, content, headers)], or [None] for the triple of
    [None]s returned from the [except] branch. *)
Definition fetch (url : string) (method : Method) : option (Z * string * Headers) :=
  match request url method with
  | Some response => Some (status response, body response, headers response)
  | None => None
  end.

(** *** [process_url] *)

(** The guard of the first line: the address was already processed, or the
    item lies beyond the depth bound. *)
Definition skips (self : Spider) (url : string) (depth : Z) : bool :=
  bool_decide (url ∈ visited self) || (depth >? max_depth self).

(** [self.visited.add(url)]. *)
Definition add_visited (self : Spider) (url : string) : Spider :=
  set_visited self ({[ url ]} ∪ visited self).

(** [self.results.append({...})]; the copy [dict(headers)] is kept as the
    header list itself. *)
Definition append_result (self : Spider) (url : string) (method : Method)
    (status : Z) (headers : Headers) : Spider :=
  set_results self (results self ++ [mkOutcome url method status headers]).

(** The test that guards link extraction. *)
Definition follows (method : Method) (content : string) (headers : Headers) : bool :=
  bool_decide (method = GET)
  && contains "text/html" (headers_get headers "Content-Type" EmptyString)
  && truthy content.

(** [await self.queue.put((link, depth + 1))]. *)
Definition put_link (depth : Z) (self : Spider) (link : string) : Spider :=
  set_queue self (Queue.put (queue self) (link, depth + 1)).

(** [for link in links: ...], [order] being the order in which the set is
    iterated. *)
Definition put_links (self : Spider) (order : list string) (depth : Z) : Spider :=
  foldl (put_link depth) self order.

(** What [extract_links] is called on, and with what result, in the turn
    of the loop for [method]; [None] when the call is not reached. *)
Definition extraction (url : string) (method : Method) : option (option (gset string)) :=
  match fetch url method with
  | Some (_, content, headers) =>
      if follows method content headers then Some (extract_links content url) else None
  | None => None
  end.

(** The set [links] the turn for [method] iterates over (empty when there
    is none). *)
Definition found (url : string) (method : Method) : gset string :=
  match extraction url method with
  | Some (Some links) => links
  | _ => ∅
  end.

(** How a piece of [process_url] ends: by falling through, or by an
    exception that leaves it. *)
Inductive Turn :=
| Normal (self : Spider)
| Raised (self : Spider).

Definition after_turn (t : Turn) : Spider :=
  match t with Normal self | Raised self => self end.

(** One turn of [for method in methods]. Python leaves the iteration order
    of a set open, so the order is an argument. *)
Definition probe (self : Spider) (url : string) (depth : Z) (method : Method)
    (order : list string) : Turn :=
  match fetch url method with
  | Some (status, content, headers) =>
      let self := append_result self url method status headers in
      if follows method content headers then
        match extract_links content url with
        | Some _ => Normal (put_links self order depth)
        | None => Raised self
        end
      else Normal self
  | None => Normal self
  end.

(** The loop over the methods, sets being iterated in the order of
    [elements]. *)
Fixpoint probe_all (self : Spider) (url : string) (depth : Z) (todo : list Method)
  : Turn :=
  match todo with
  | [] => Normal self
  | method :: todo =>
      match probe self url depth method (elements (found url method)) with
      | Normal self => probe_all self url depth todo
      | Raised self => Raised self
      end
  end.

(** [process_url] from its first line to its last. *)
Definition process_url (self : Spider) (url : string) (depth : Z) : Turn :=
  if skips self url depth then Normal self
  else probe_all (add_visited self url) url depth methods.

(** ** The worker pool

    The tasks of [run] are scheduled cooperatively: a task runs until it
    suspends. A worker suspends in [queue.get()] on an empty queue and in
    the network exchange of [fetch]; [queue.put] never suspends on a queue
    without bound, and no shared state is touched between the two [await]s
    of [fetch]. The segments below end at these points, and also after
    every pop and every [task_done], where the code would go on without
    suspending: that only adds interleavings. *)

(** A worker task is suspended either in [queue.get()] or in the [fetch] of
    the first method of [todo] for the item it holds. *)
Inductive Task :=
| Waiting
| Fetching (url : string) (depth : Z) (todo : list Method).

(** The spider and the tasks [run] created for it. *)
Record Run := mkRun {
  spider : Spider;
  tasks : list Task
}.

(** [run] up to [await self.queue.join()]: one task per element of
    [range(self.concurrency)]. *)
Definition start_run (self : Spider) : Run :=
  mkRun self (replicate (Z.to_nat (concurrency self)) Waiting).

(** What an observer of the queue and of [process_url] sees. *)
Inductive Event :=
| Put (url : string) (depth : Z)     (* an item enters the queue *)
| Skip (url : string) (depth : Z)    (* a popped item fails the guard *)
| Start (url : string) (depth : Z).  (* a popped item passes the guard *)

(** [self.queue.task_done()], on either path of [worker]. *)
Definition finish (self : Spider) : option Spider :=
  q ← Queue.task_done (queue self); Some (set_queue self q).

(** Where a worker stands after one turn of the loop over the methods: in
    the next [fetch], or back in [queue.get()] once [task_done] was called
    (after the last turn, or in the handler of an exception). *)
Definition next_task (turn : Turn) (url : string) (depth : Z)
    (rest : list Method) : option (Spider * Task) :=
  match turn, rest with
  | Normal self, _ :: _ => Some (self, Fetching url depth rest)
  | Normal self, [] | Raised self, _ => self' ← finish self; Some (self', Waiting)
  end.

Definition puts (turn : Turn) (order : list string) (depth : Z) : list Event :=
  match turn with
  | Normal _ => (λ link, Put link (depth + 1)) <$> order
  | Raised _ => []
  end.

(** One atomic segment of one worker, with the events it emits:
    - [step_skip]: pop an item, fall through the guard of [process_url],
      mark the item done;
    - [step_start]: pop an item, pass the guard, add the address to the
      visited set and enter the [fetch] of the first method;
    - [step_probe]: a [fetch] returns; run the rest of the turn (the links
      of the set being put in any order), then enter the next [fetch], or
      mark the item done after the last turn or in the exception handler. *)
Inductive step : Run → list Event → Run → Prop :=
| step_skip r i url depth q self' :
    tasks r !! i = Some Waiting →
    Queue.get (queue (spider r)) = Some ((url, depth), q) →
    skips (spider r) url depth = true →
    finish (set_queue (spider r) q) = Some self' →
    step r [Skip url depth] (mkRun self' (tasks r))
| step_start r i url depth q :
    tasks r !! i = Some Waiting →
    Queue.get (queue (spider r)) = Some ((url, depth), q) →
    skips (spider r) url depth = false →
    step r [Start url depth]
         (mkRun (add_visited (set_queue (spider r) q) url)
                (<[i := Fetching url depth methods]> (tasks r)))
| step_probe r i url depth method rest order self' task' :
    tasks r !! i = Some (Fetching url depth (method :: rest)) →
    order ≡ₚ elements (found url method) →
    next_task (probe (spider r) url depth method order) url depth rest
      = Some (self', task') →
    step r (puts (probe (spider r) url depth method order) order depth)
         (mkRun self' (<[i := task']> (tasks r))).

(** The executions of [AJAXSpider(start, depth_limit, workers).run()], with
    the events seen so far. *)
Inductive execution (start : string) (depth_limit workers : Z)
  : list Event → Run → Prop :=
| execution_init :
    execution start depth_limit workers
      [Put start 0] (start_run (init start depth_limit workers))
| execution_step trace r events r' :
    execution start depth_limit workers trace r →
    step r events r' →
    execution start depth_limit workers (trace ++ events) r'.

(** The step worker [i] takes, sets being iterated in the order of
    [elements]; [None] when it has none to take. *)
Definition exec_step (r : Run) (i : nat) : option (list Event * Run) :=
  match tasks r !! i with
  | Some Waiting =>
      match Queue.get (queue (spider r)) with
      | Some ((url, depth), q) =>
          if skips (spider r) url depth then
            self' ← finish (set_queue (spider r) q);
            Some ([Skip url depth], mkRun self' (tasks r))
          else
            Some ([Start url depth],
                  mkRun (add_visited (set_queue (spider r) q) url)
                        (<[i := Fetching url depth methods]> (tasks r)))
      | None => None
      end
  | Some (Fetching url depth (method :: rest)) =>
      let order := elements (found url method) in
      let turn := probe (spider r) url depth method order in
      '(self', task') ← next_task turn url depth rest;
      Some (puts turn order depth, mkRun self' (<[i := task']> (tasks r)))
  | _ => None
  end.

(** A schedule names the worker that runs next, segment after segment. *)
Fixpoint exec (r : Run) (trace : list Event) (schedule : list nat)
  : option (list Event * Run) :=
  match schedule with
  | [] => Some (trace, r)
  | i :: schedule =>
      '(events, r') ← exec_step r i;
      exec r' (trace ++ events) schedule
  end.

Definition run_schedule (start : string) (depth_limit workers : Z)
    (schedule : list nat) : option (list Event * Run) :=
  exec (start_run (init start depth_limit workers)) [Put start 0] schedule.

(** [await self.queue.join()] has returned, or may return, in [r]. *)
Definition joined (r : Run) : bool := Queue.join_returns (queue (spider r)).

(** A worker holds an item it has not marked done. *)
Definition in_flight (t : Task) : bool :=
  match t with Waiting => false | Fetching _ _ _ => true end.

(** The number of such workers. *)
Fixpoint busy (ts : list Task) : Z :=
  match ts with
  | [] => 0
  | t :: ts => (if in_flight t then 1 else 0) + busy ts
  end.

(** The addresses whose processing has started, oldest first. *)
Fixpoint started (trace : list Event) : list string :=
  match trace with
  | [] => []
  | Start url _ :: trace => url :: started trace
  | _ :: trace => started trace
  end.

(** The (address, method) pairs of a result list. *)
Definition pairs (log : list Outcome) : list (string * Method) :=
  (λ o, (o_url o, o_method o)) <$> log.

(** ** The link graph *)

(** The addresses the page at [url] links to: what its GET yields. *)
Definition links_of (url : string) : gset string := found url GET.

(** [walk start n url]: [url] is [n] links away from [start]. *)
Inductive walk (start : string) : nat → string → Prop :=
| walk_seed : walk start 0%nat start
| walk_hop n u v : walk start n u → v ∈ links_of u → walk start (S n) v.

(** ** Auxiliary notions for the statements *)

(** The items a list of links adds to the queue. *)
Definition linked (order : list string) (depth : Z) : list (string * Z) :=
  (λ link, (link, depth + 1)) <$> order.

(** The record one turn appends. *)
Definition recorded (url : string) (method : Method) : list Outcome :=
  match fetch url method with
  | Some (status, _, headers) => [mkOutcome url method status headers]
  | None => []
  end.

(** The turn for [method] is left by an exception. *)
Definition raises (url : string) (method : Method) : bool :=
  match extraction url method with
  | Some None => true
  | _ => false
  end.

(** The counter of the queue counts the queued items and the items held
    by workers. *)
Definition counted (r : Run) : Prop :=
  Queue.unfinished_tasks (queue (spider r))
  = Z.of_nat (length (Queue.items (queue (spider r)))) + busy (tasks r).

(** How the state of a run relates to the events seen so far, for the run
    of [AJAXSpider(start, depth_limit, _)]. *)
Record traced (start : string) (depth_limit : Z) (trace : list Event) (r : Run)
  : Prop := mkTraced {
  (* the configuration is never assigned to *)
  traced_start : start_url (spider r) = start;
  traced_limit : max_depth (spider r) = depth_limit;
  (* queued items were put *)
  traced_items : ∀ url depth,
    (url, depth) ∈ Queue.items (queue (spider r)) → Put url depth ∈ trace;
  (* a worker holds an item that passed the guard *)
  traced_tasks : ∀ i url depth todo,
    tasks r !! i = Some (Fetching url depth todo) → Start url depth ∈ trace;
  (* a result belongs to an address whose processing started *)
  traced_results : ∀ o, o ∈ results (spider r) → o_url o ∈ started trace;
  (* the visited set holds the addresses whose processing started *)
  traced_visited : ∀ url, url ∈ visited (spider r) ↔ url ∈ started trace;
  (* and none started twice *)
  traced_once : NoDup (started trace);
  (* what passes the guard was put, within the depth bound *)
  traced_start_put : ∀ url depth,
    Start url depth ∈ trace → Put url depth ∈ trace ∧ depth ≤ depth_limit;
  (* what fails the guard was processed before or lies too deep *)
  traced_skip : ∀ url depth,
    Skip url depth ∈ trace → url ∈ started trace ∨ depth_limit < depth;
  (* the depth of an item is the length of a walk from the seed *)
  traced_walk : ∀ url depth,
    Put url depth ∈ trace → ∃ n, depth = Z.of_nat n ∧ walk start n url;
  (* an item put is the seed, or a link of a page that passed the guard one
     level above: nothing else is tested when it is put *)
  traced_parent : ∀ url depth,
    Put url depth ∈ trace →
    (url = start ∧ depth = 0)
    ∨ ∃ parent, Start parent (depth - 1) ∈ trace ∧ url ∈ links_of parent;
  (* an item put is queued, or its address was processed, or it lies too deep *)
  traced_covered : ∀ url depth,
    Put url depth ∈ trace →
    (url, depth) ∈ Queue.items (queue (spider r))
    ∨ url ∈ started trace ∨ depth_limit < depth
}.


(** How often an address was put on the queue. *)
Fixpoint put_count (url : string) (trace : list Event) : nat :=
  match trace with
  | [] => 0
  | Put u _ :: trace =>
      ((if bool_decide (u = url) then 1 else 0) + put_count url trace)%nat
  | _ :: trace => put_count url trace
  end.


(** [url] is what the loop of [extract_links] computes from [tag]: the
    reference read from the tag is not empty, [url] is its resolution
    against [base_url] without the fragment, and its scheme is accepted. *)
Definition normalizes (base_url : string) (tag : Tag) (url : string) : Prop :=
  ∃ raw full frag p,
    tag_get (tag_attrs tag) (link_attr tag) = Some raw
    ∧ truthy raw = true
    ∧ urljoin base_url raw = Some full
    ∧ urldefrag full = Some (url, frag)
    ∧ urlparse url = Some p
    ∧ scheme p ∈ ["http"; "https"].


(** The methods whose turn is run when [url] is processed: all of them,
    unless the extraction of the links in the turn of GET raises. *)
Definition attempted (url : string) : list Method :=
  if raises url GET then [GET] else methods.

(** A worker holds [url] and has the turn of [method] still to run. *)
Definition pending (r : Run) (url : string) (method : Method) : Prop :=
  ∃ i depth todo, tasks r !! i = Some (Fetching url depth todo) ∧ method ∈ todo.

(** How the result list relates to the visited set and to the workers. *)
Record logged (r : Run) : Prop := mkLogged {
  (* a worker holds a visited address and a tail of the method list *)
  logged_tasks : ∀ i url depth todo,
    tasks r !! i = Some (Fetching url depth todo) →
    url ∈ visited (spider r)
    ∧ todo `suffix_of` methods
    ∧ (todo = methods ∨ raises url GET = false);
  (* no two workers hold the same address *)
  logged_unique : ∀ i j url depth depth' todo todo',
    tasks r !! i = Some (Fetching url depth todo) →
    tasks r !! j = Some (Fetching url depth' todo') → i = j;
  (* the log holds the turns run so far that obtained a status *)
  logged_pairs : ∀ url method,
    (url, method) ∈ pairs (results (spider r))
    ↔ url ∈ visited (spider r)
      ∧ is_Some (fetch url method)
      ∧ method ∈ attempted url
      ∧ ¬ pending r url method
}.


(** The addresses at most [n] links away from [start]. *)
Fixpoint within (start : string) (n : nat) : gset string :=
  match n with
  | O => {[ start ]}
  | S n => within start n ∪ ⋃ (links_of <$> elements (within start n))
  end.

(** The steps the processing of [url] can still take once it is in the
    hands of a worker with [todo] left: one per turn, and one for each
    item the turn of GET puts on the queue. *)
Definition todo_cost (url : string) (todo : list Method) : nat :=
  (length todo + if bool_decide (GET ∈ todo) then size (links_of url) else 0)%nat.

Definition task_cost (t : Task) : nat :=
  match t with
  | Waiting => 0%nat
  | Fetching url _ todo => todo_cost url todo
  end.

(** The cost of an address no worker has taken yet. *)
Definition cost (url : string) : nat := todo_cost url methods.

(** A bound on the steps a run can still take: the cost of every address
    within the depth bound that is not visited yet, one step per queued
    item, and the cost of what the workers hold. *)
Definition potential (start : string) (depth_limit : Z) (r : Run) : nat :=
  (sum_list_with cost
     (elements (within start (Z.to_nat depth_limit) ∖ visited (spider r)))
   + length (Queue.items (queue (spider r)))
   + sum_list_with task_cost (tasks r))%nat.

(** [steps r n r']: [n] steps lead from [r] to [r']. *)
Inductive steps : Run → nat → Run → Prop :=
| steps_O r : steps r 0%nat r
| steps_S r events r1 n r2 :
    step r events r1 → steps r1 n r2 → steps r (S n) r2.

(** The pool keeps its size, and a worker that holds an item has a turn
    left to run. *)
Definition staffed (workers : Z) (r : Run) : Prop :=
  length (tasks r) = Z.to_nat workers
  ∧ ∀ i url depth todo,
      tasks r !! i = Some (Fetching url depth todo) → todo ≠ [].


(** The turns of the loop over [todo] that are run for [url]: the loop is
    left at the first turn that raises. *)
Fixpoint turns (url : string) (todo : list Method) : list Method :=
  match todo with
  | [] => []
  | method :: todo =>
      method :: (if raises url method then [] else turns url todo)
  end.

(** A reference of [tag] makes one of the library calls of the loop of
    [extract_links] raise. *)
Definition refused (base_url : string) (tag : Tag) : Prop :=
  ∃ raw,
    tag_get (tag_attrs tag) (link_attr tag) = Some raw
    ∧ truthy raw = true
    ∧ (urljoin base_url raw = None
       ∨ ∃ full,
           urljoin base_url raw = Some full
           ∧ (urldefrag full = None
              ∨ ∃ parsed frag,
                  urldefrag full = Some (parsed, frag)
                  ∧ urlparse parsed = None)).


(** The items of a queue lie on two levels: first those of depth [c],
    then those of depth [c + 1]. *)
Definition layered (c : Z) (items : list (string * Z)) : Prop :=
  ∃ lo hi,
    items = lo ++ hi
    ∧ Forall (λ item, item.2 = c) lo
    ∧ Forall (λ item, item.2 = c + 1) hi.

(** What a run with a single worker keeps: the queue is layered on the
    level of the item in hand, the links of every page whose GET turn is
    over were put, and every address is processed at its distance from
    the seed. *)
Record breadth_first (start : string) (trace : list Event) (r : Run)
  : Prop := mkBreadthFirst {
  bf_seed : Put start 0 ∈ trace;
  bf_layers : ∃ c,
    layered c (Queue.items (queue (spider r)))
    ∧ ∀ i url depth todo,
        tasks r !! i = Some (Fetching url depth todo) → depth = c;
  bf_links : ∀ url depth,
    Start url depth ∈ trace →
    pending r url GET ∨ ∀ v, v ∈ links_of url → Put v (depth + 1) ∈ trace;
  bf_shortest : ∀ url depth n,
    Start url depth ∈ trace → walk start n url → depth ≤ Z.of_nat n
}.


(** * Properties *)

(** ** Shapes of the pieces *)

Lemma get_Some q item q' :
  Queue.get q = Some (item, q') →
  Queue.items q = item :: Queue.items q'
  ∧ Queue.unfinished_tasks q' = Queue.unfinished_tasks q.
Proof.
  unfold Queue.get. destruct (Queue.items q) as [|x rest] eqn:E; [done|].
  intros [= <- <-]. done.
Qed.

Lemma finish_Some self self' :
  finish self = Some self' →
  0 < Queue.unfinished_tasks (queue self)
  ∧ self' = set_queue self (Queue.mk (Queue.items (queue self))
                                     (Queue.unfinished_tasks (queue self) - 1)).
Proof.
  unfold finish, Queue.task_done.
  destruct (Z.leb_spec (Queue.unfinished_tasks (queue self)) 0); simpl; [done|].
  intros [= <-]. done.
Qed.

Lemma finish_is_Some self :
  0 < Queue.unfinished_tasks (queue self) → is_Some (finish self).
Proof.
  intros H. unfold finish, Queue.task_done.
  destruct (Z.leb_spec (Queue.unfinished_tasks (queue self)) 0); [lia|]. by eexists.
Qed.

Lemma put_links_spec order : ∀ self depth,
  put_links self order depth
  = set_queue self
      (Queue.mk (Queue.items (queue self) ++ linked order depth)
                (Queue.unfinished_tasks (queue self) + Z.of_nat (length order))).
Proof.
  induction order as [|link order IH]; intros self depth.
  - destruct self as [? ? ? ? ? [? ?]]. unfold put_links, set_queue. simpl.
    by rewrite app_nil_r, Z.add_0_r.
  - unfold put_links in *. simpl foldl. rewrite IH.
    destruct self as [? ? ? ? ? [? ?]]. unfold put_link, set_queue, Queue.put. simpl.
    rewrite <- app_assoc. simpl. do 2 f_equal. lia.
Qed.

Lemma found_only_GET url method : method ≠ GET → found url method = ∅.
Proof.
  intros Hm. unfold found, extraction.
  destruct (fetch url method) as [[[? content] hdrs]|]; [|done].
  unfold follows. rewrite bool_decide_eq_false_2 by done. done.
Qed.

Lemma raises_only_GET url method : raises url method = true → method = GET.
Proof.
  unfold raises, extraction.
  destruct (fetch url method) as [[[? content] hdrs]|]; [|done].
  unfold follows. destruct (decide (method = GET)) as [->|Hm]; [done|].
  rewrite bool_decide_eq_false_2 by done. done.
Qed.

Lemma raises_found url method : raises url method = true → found url method = ∅.
Proof.
  unfold raises, found. by destruct (extraction url method) as [[?|]|].
Qed.

(** One turn, spelled out field by field. *)
Lemma probe_spec self url depth method order :
  order ≡ₚ elements (found url method) →
  probe self url depth method order
  = (if raises url method then Raised else Normal)
      (mkSpider (start_url self) (max_depth self) (concurrency self)
         (visited self) (results self ++ recorded url method)
         (Queue.mk (Queue.items (queue self) ++ linked order depth)
                   (Queue.unfinished_tasks (queue self) + Z.of_nat (length order)))).
Proof.
  intros Horder.
  assert (found url method = ∅ → order = []) as Hnil.
  { intros E. rewrite E, elements_empty in Horder. by apply Permutation_nil_r in Horder. }
  unfold probe, recorded, raises. unfold found, extraction in *.
  destruct self as [s0 d0 c0 v0 r0 [it un]].
  destruct (fetch url method) as [[[st content] hdrs]|]; simpl.
  - destruct (follows method content hdrs).
    + destruct (extract_links content url) as [links|].
      * rewrite put_links_spec. done.
      * rewrite Hnil by done. simpl. by rewrite app_nil_r, Z.add_0_r.
    + rewrite Hnil by done. unfold append_result, set_results. simpl.
      by rewrite app_nil_r, Z.add_0_r.
  - rewrite Hnil by done. simpl. by rewrite !app_nil_r, Z.add_0_r.
Qed.

Lemma puts_spec self url depth method order :
  order ≡ₚ elements (found url method) →
  puts (probe self url depth method order) order depth
  = (λ link, Put link (depth + 1)) <$> order.
Proof.
  intros Horder. rewrite probe_spec by done.
  destruct (raises url method) eqn:E; [|done]. simpl.
  apply raises_found in E. rewrite E, elements_empty in Horder.
  apply Permutation_nil_r in Horder. by subst.
Qed.

(** ** Counting unfinished tasks *)

Lemma busy_insert ts : ∀ i old new,
  ts !! i = Some old →
  busy (<[i := new]> ts)
  = busy ts - (if in_flight old then 1 else 0) + (if in_flight new then 1 else 0).
Proof.
  induction ts as [|t ts IH]; intros [|i] old new; simpl; try done.
  - intros [= ->]. lia.
  - intros H. rewrite (IH _ _ new H). lia.
Qed.

Lemma busy_nonneg ts : 0 ≤ busy ts.
Proof. induction ts as [|[|] ts IH]; simpl; lia. Qed.

Lemma busy_zero ts : busy ts = 0 ↔ Forall (λ t, t = Waiting) ts.
Proof.
  induction ts as [|t ts IH]; simpl.
  - split; [constructor|done].
  - pose proof (busy_nonneg ts). rewrite Forall_cons. destruct t; simpl.
    + rewrite <- IH. split; [intros; split; [done|lia]|intros [_ ?]; lia].
    + split; [lia|]. intros [? _]. done.
Qed.

Lemma busy_replicate n : busy (replicate n Waiting) = 0.
Proof. induction n; simpl; lia. Qed.

Lemma step_counted r events r' : counted r → step r events r' → counted r'.
Proof.
  unfold counted. intros Hc Hstep.
  destruct Hstep as [r i url depth q self' Hi Hget Hskip Hfin
                    |r i url depth q Hi Hget Hskip
                    |r i url depth method rest order self' task' Hi Horder Hnext].
  - apply get_Some in Hget as [Hitems Hun].
    apply finish_Some in Hfin as [Hpos ->]. simpl in *.
    rewrite Hitems in Hc. simpl in Hc. lia.
  - apply get_Some in Hget as [Hitems Hun]. simpl.
    rewrite (busy_insert _ _ _ _ Hi). simpl.
    rewrite Hitems in Hc. simpl in Hc. lia.
  - rewrite probe_spec in Hnext by done. simpl.
    rewrite (busy_insert _ _ _ task' Hi). simpl.
    assert (∀ s, finish s = Some self' →
              Queue.unfinished_tasks (queue self')
              = Queue.unfinished_tasks (queue s) - 1
              ∧ Queue.items (queue self') = Queue.items (queue s)) as Hfin.
    { intros s Hs. apply finish_Some in Hs as [_ ->]. done. }
    destruct (raises url method) eqn:Er.
    + apply raises_found in Er. rewrite Er, elements_empty in Horder.
      apply Permutation_nil_r in Horder as ->. simpl in Hnext.
      assert (task' = Waiting ∧ finish
        (mkSpider (start_url (spider r)) (max_depth (spider r))
           (concurrency (spider r)) (visited (spider r))
           (results (spider r) ++ recorded url method)
           (Queue.mk (Queue.items (queue (spider r)) ++ linked [] depth)
              (Queue.unfinished_tasks (queue (spider r)) + Z.of_nat 0)))
        = Some self') as [-> Hf].
      { destruct rest; simpl in Hnext;
          match type of Hnext with
          | context [finish ?s] => destruct (finish s) eqn:E; simplify_eq/=; done
          end. }
      apply Hfin in Hf as [-> ->]. simpl. rewrite length_app. simpl. lia.
    + destruct rest as [|m' rest]; simpl in Hnext.
      * match type of Hnext with
        | context [finish ?s] => destruct (finish s) eqn:E; simplify_eq/=
        end.
        apply Hfin in E as [-> ->]. simpl.
        rewrite length_app. unfold linked. rewrite length_fmap. lia.
      * simplify_eq/=. rewrite length_app. unfold linked. rewrite length_fmap. lia.
Qed.

Lemma execution_counted start depth_limit workers trace r :
  execution start depth_limit workers trace r → counted r.
Proof.
  induction 1 as [|trace r events r' _ IH Hstep].
  - unfold counted, start_run. simpl. rewrite busy_replicate. done.
  - eauto using step_counted.
Qed.

(** ** Schedules are executions *)

Lemma exec_step_sound r i events r' :
  exec_step r i = Some (events, r') → step r events r'.
Proof.
  unfold exec_step. intros H.
  destruct (tasks r !! i) as [[|url depth [|method rest]]|] eqn:Hi; try done.
  - destruct (Queue.get (queue (spider r))) as [[[url depth] q]|] eqn:Hget; [|done].
    destruct (skips (spider r) url depth) eqn:Hskip.
    + destruct (finish (set_queue (spider r) q)) as [self'|] eqn:Hfin; simplify_eq/=.
      by eapply step_skip.
    + simplify_eq/=. by eapply step_start.
  - simpl in H.
    destruct (next_task _ url depth rest) as [[self' task']|] eqn:Hnext; simplify_eq/=.
    by eapply step_probe.
Qed.

Lemma exec_sound start depth_limit workers schedule : ∀ r trace trace' r',
  execution start depth_limit workers trace r →
  exec r trace schedule = Some (trace', r') →
  execution start depth_limit workers trace' r'.
Proof.
  induction schedule as [|i schedule IH]; intros r trace trace' r' Hex H; simpl in H.
  - by simplify_eq.
  - destruct (exec_step r i) as [[events r1]|] eqn:Hstep; [|done]. simpl in H.
    eapply IH; [|done]. eapply execution_step; [done|]. by eapply exec_step_sound.
Qed.

Lemma run_schedule_sound start depth_limit workers schedule trace r :
  run_schedule start depth_limit workers schedule = Some (trace, r) →
  execution start depth_limit workers trace r.
Proof. apply exec_sound. constructor. Qed.

(** ** Termination detection *)

Lemma joined_counted r :
  counted r →
  joined r = true
  ↔ Queue.items (queue (spider r)) = [] ∧ Forall (λ t, t = Waiting) (tasks r).
Proof.
  unfold counted, joined, Queue.join_returns. intros Hc.
  pose proof (busy_nonneg (tasks r)) as Hb.
  rewrite Z.eqb_eq, <- busy_zero. split.
  - intros H0. split; [|lia].
    destruct (Queue.items (queue (spider r))); [done|simpl in *; lia].
  - intros [Hq Hz]. rewrite Hc, Hq, Hz. done.
Qed.

(** [task_done] is never called once too often: a worker that has an item
    to pop, or a turn to finish, has its step. *)
Lemma worker_has_step start depth_limit workers trace r i :
  execution start depth_limit workers trace r →
  (tasks r !! i = Some Waiting ∧ Queue.items (queue (spider r)) ≠ []
   ∨ ∃ url depth method rest,
       tasks r !! i = Some (Fetching url depth (method :: rest))) →
  is_Some (exec_step r i).
Proof.
  intros Hex Hi. apply execution_counted in Hex. unfold counted in Hex.
  pose proof (busy_nonneg (tasks r)) as Hb. unfold exec_step.
  destruct Hi as [[Hi Hq]|(url & depth & method & rest & Hi)]; rewrite Hi.
  - unfold Queue.get.
    destruct (Queue.items (queue (spider r))) as [|[url depth] q] eqn:Hitems; [done|].
    destruct (skips _ _ _); [|by eexists].
    destruct (finish_is_Some
      (set_queue (spider r) (Queue.mk q (Queue.unfinished_tasks (queue (spider r))))))
      as [self' ->]; [|by eexists].
    simpl in *. lia.
  - simpl.
    assert (1 ≤ busy (tasks r)) as Hbusy.
    { clear -Hi. revert i Hi. induction (tasks r) as [|t ts IH]; intros [|i]; simpl; try done.
      - intros [= ->]. pose proof (busy_nonneg ts). simpl. lia.
      - intros H. specialize (IH _ H). destruct (in_flight t); lia. }
    rewrite probe_spec by done.
    assert (∀ s, 0 < Queue.unfinished_tasks (queue s) →
              is_Some (self' ← finish s; Some (self', Waiting))) as Hfin.
    { intros s Hs. destruct (finish_is_Some s Hs) as [self' ->]. by eexists. }
    destruct (raises url method), rest as [|m' rest]; simpl.
    all: try (edestruct Hfin as [[self' task'] ->]; [|by eexists]; simpl; lia).
    by eexists.
Qed.

(** ** Events and state *)

Lemma started_app t1 t2 : started (t1 ++ t2) = started t1 ++ started t2.
Proof.
  induction t1 as [|[] t1 IH]; simpl; [done|done|done|]. by rewrite IH.
Qed.

Lemma started_puts order depth :
  started ((λ link, Put link depth) <$> order) = [].
Proof. by induction order. Qed.

Lemma elem_of_started url trace :
  url ∈ started trace ↔ ∃ depth, Start url depth ∈ trace.
Proof.
  induction trace as [|e trace IH]; simpl.
  - split; [by intros ?%elem_of_nil|intros [? ?%elem_of_nil]; done].
  - destruct e as [u d|u d|u d].
    + rewrite IH. split; intros [depth H]; exists depth.
      * by right.
      * by apply elem_of_cons in H as [?|?].
    + rewrite IH. split; intros [depth H]; exists depth.
      * by right.
      * by apply elem_of_cons in H as [?|?].
    + rewrite elem_of_cons, IH. split.
      * intros [->|[depth H]]; [exists d; left|exists depth; right]; done.
      * intros [depth [[= -> ->]|H]%elem_of_cons]; [by left|right; by exists depth].
Qed.

Lemma elem_of_puts (e : Event) (order : list string) depth :
  e ∈ (λ link, Put link depth) <$> order ↔ ∃ link, e = Put link depth ∧ link ∈ order.
Proof. apply list_elem_of_fmap. Qed.

Lemma elem_of_linked url depth' (order : list string) depth :
  (url, depth') ∈ linked order depth ↔ depth' = depth + 1 ∧ url ∈ order.
Proof.
  unfold linked. rewrite list_elem_of_fmap. split.
  - intros (link & [= -> ->] & H). done.
  - intros [-> H]. by exists url.
Qed.

Lemma walk_zero start url : walk start 0%nat url → url = start.
Proof. by inversion 1. Qed.

Lemma start_traced start depth_limit workers :
  traced start depth_limit [Put start 0]
         (start_run (init start depth_limit workers)).
Proof.
  split; simpl; try done.
  - intros url depth [= -> ->]%list_elem_of_singleton. by left.
  - intros i url depth todo [[=] _]%lookup_replicate.
  - intros o []%elem_of_nil.
  - intros url. split; [by intros ?%not_elem_of_empty|by intros ?%elem_of_nil].
  - constructor.
  - intros url depth [=]%list_elem_of_singleton.
  - intros url depth [=]%list_elem_of_singleton.
  - intros url depth [= -> ->]%list_elem_of_singleton.
    exists 0%nat. split; [done|constructor].
  - intros url depth [= -> ->]%list_elem_of_singleton. by left.
  - intros url depth [= -> ->]%list_elem_of_singleton. left. by left.
Qed.

Lemma skips_true self url depth :
  skips self url depth = true ↔ url ∈ visited self ∨ max_depth self < depth.
Proof.
  unfold skips. rewrite orb_true_iff, bool_decide_eq_true, Z.gtb_ltb, Z.ltb_lt. done.
Qed.

Lemma skips_false self url depth :
  skips self url depth = false ↔ (url ∉ visited self) ∧ depth ≤ max_depth self.
Proof.
  unfold skips. rewrite orb_false_iff, bool_decide_eq_false, Z.gtb_ltb, Z.ltb_ge. done.
Qed.

Lemma next_task_inv turn url depth rest self' task' :
  next_task turn url depth rest = Some (self', task') →
  (task' = Waiting ∧ finish (after_turn turn) = Some self'
   ∧ (rest = [] ∨ ∃ self, turn = Raised self))
  ∨ (task' = Fetching url depth rest ∧ self' = after_turn turn
     ∧ rest ≠ [] ∧ ∃ self, turn = Normal self).
Proof.
  destruct turn as [self|self], rest as [|m rest]; simpl; intros H.
  - left. destruct (finish self) eqn:E; simplify_eq/=. eauto.
  - right. simplify_eq. eauto.
  - left. destruct (finish self) eqn:E; simplify_eq/=. eauto.
  - left. destruct (finish self) eqn:E; simplify_eq/=. eauto.
Qed.

Lemma step_traced start depth_limit trace r events r' :
  traced start depth_limit trace r →
  step r events r' →
  traced start depth_limit (trace ++ events) r'.
Proof.
  intros [Hs Hl Hitems Htasks Hres Hvis Honce Hsp Hskp Hwalk Hpar Hcov] Hstep.
  destruct Hstep as [r i url depth q self' Hi Hget Hskip Hfin
                    |r i url depth q Hi Hget Hskip
                    |r i url depth method rest order self' task' Hi Horder Hnext].
  - (* a popped item fails the guard *)
    apply get_Some in Hget as [Hq _]. apply finish_Some in Hfin as [_ ->].
    apply skips_true in Hskip. rewrite Hl, Hvis in Hskip.
    split; simpl; rewrite ?started_app, ?app_nil_r; simpl; rewrite ?app_nil_r; try done.
    + intros u d H. apply elem_of_app. left. apply Hitems. rewrite Hq. by right.
    + intros j u d todo H. apply elem_of_app. left. eauto.
    + intros u d [H|[=]%list_elem_of_singleton]%elem_of_app.
      destruct (Hsp _ _ H). split; [apply elem_of_app; by left|done].
    + intros u d [H|[= -> ->]%list_elem_of_singleton]%elem_of_app; eauto.
    + intros u d [H|[=]%list_elem_of_singleton]%elem_of_app. eauto.
    + intros u d [H|[=]%list_elem_of_singleton]%elem_of_app.
      destruct (Hpar _ _ H) as [?|(parent & ? & ?)]; [by left|right].
      exists parent. split; [apply elem_of_app; by left|done].
    + intros u d [H|[=]%list_elem_of_singleton]%elem_of_app.
      destruct (Hcov _ _ H) as [Hin|?]; [|by right].
      rewrite Hq in Hin. apply elem_of_cons in Hin as [[= -> ->]|Hin]; [by right|by left].
  - (* a popped item passes the guard *)
    apply get_Some in Hget as [Hq _].
    apply skips_false in Hskip as [Hnew Hdepth]. rewrite Hl in Hdepth. rewrite Hvis in Hnew.
    assert (Put url depth ∈ trace) as Hput by (apply Hitems; rewrite Hq; by left).
    split; simpl; rewrite ?started_app; simpl; try done.
    + intros u d H. apply elem_of_app. left. apply Hitems. rewrite Hq. by right.
    + intros j u d todo H. apply elem_of_app.
      destruct (decide (i = j)) as [->|Hne].
      * rewrite list_lookup_insert_eq in H by (by eapply lookup_lt_Some).
        simplify_eq. right. by left.
      * rewrite list_lookup_insert_ne in H by done. left. eauto.
    + intros o H. apply elem_of_app. left. eauto.
    + intros u. rewrite elem_of_union, elem_of_singleton, elem_of_app,
        list_elem_of_singleton, Hvis. tauto.
    + apply NoDup_app. split; [done|]. split; [|apply NoDup_singleton].
      intros u Hu ->%list_elem_of_singleton. done.
    + intros u d [H|[= -> ->]%list_elem_of_singleton]%elem_of_app.
      * destruct (Hsp _ _ H). split; [apply elem_of_app; by left|done].
      * split; [apply elem_of_app; by left|done].
    + intros u d [H|[=]%list_elem_of_singleton]%elem_of_app.
      destruct (Hskp _ _ H); [left; apply elem_of_app; by left|by right].
    + intros u d [H|[=]%list_elem_of_singleton]%elem_of_app. eauto.
    + intros u d [H|[=]%list_elem_of_singleton]%elem_of_app.
      destruct (Hpar _ _ H) as [?|(parent & ? & ?)]; [by left|right].
      exists parent. split; [apply elem_of_app; by left|done].
    + intros u d [H|[=]%list_elem_of_singleton]%elem_of_app.
      destruct (Hcov _ _ H) as [Hin|[?|?]].
      * rewrite Hq in Hin. apply elem_of_cons in Hin as [[= -> ->]|Hin]; [|by left].
        right. left. apply elem_of_app. right. by left.
      * right. left. apply elem_of_app. by left.
      * by right; right.
  - (* a fetch completes *)
    rewrite puts_spec by done.
    pose proof (Htasks _ _ _ _ Hi) as Hstart.
    destruct (Hsp _ _ Hstart) as [Hput Hdepth].
    destruct (Hwalk _ _ Hput) as (n & Hn & Hw).
    assert (∃ q', self' = mkSpider (start_url (spider r)) (max_depth (spider r))
                     (concurrency (spider r)) (visited (spider r))
                     (results (spider r) ++ recorded url method) q'
                  ∧ Queue.items q'
                    = Queue.items (queue (spider r)) ++ linked order depth)
      as (q' & -> & Hq').
    { apply next_task_inv in Hnext as [(_ & Hfin & _)|(_ & -> & _)];
        rewrite probe_spec in * by done.
      - apply finish_Some in Hfin as [_ ->].
        destruct (raises url method); simpl; eexists; split; done.
      - destruct (raises url method); simpl; eexists; split; done. }
    assert (task' = Waiting ∨ task' = Fetching url depth rest) as Htask.
    { apply next_task_inv in Hnext as [(-> & _)|(-> & _)]; auto. }
    clear Hnext.
    split; simpl; rewrite ?started_app, ?started_puts, ?app_nil_r; try done.
    + intros u d. rewrite Hq', !elem_of_app, elem_of_linked, elem_of_puts.
      intros [H|[-> H]]; [left; eauto|right; eauto].
    + intros j u d todo H. apply elem_of_app. left.
      destruct (decide (i = j)) as [->|Hne].
      * rewrite list_lookup_insert_eq in H by (by eapply lookup_lt_Some).
        destruct Htask as [->| ->]; simplify_eq. done.
      * rewrite list_lookup_insert_ne in H by done. eauto.
    + intros o [H|H]%elem_of_app; [eauto|].
      assert (o_url o = url) as ->.
      { unfold recorded in H. destruct (fetch url method) as [[[? ?] ?]|].
        - by apply list_elem_of_singleton in H as ->.
        - by apply elem_of_nil in H. }
      apply elem_of_started. eauto.
    + intros u d [H|(link & [=] & _)%elem_of_puts]%elem_of_app.
      destruct (Hsp _ _ H). split; [apply elem_of_app; by left|done].
    + intros u d [H|(link & [=] & _)%elem_of_puts]%elem_of_app. eauto.
    + intros u d [H|(link & [= -> ->] & Hlink)%elem_of_puts]%elem_of_app; [eauto|].
      exists (S n). split; [lia|]. econstructor; [done|].
      rewrite Horder in Hlink. apply elem_of_elements in Hlink.
      destruct (decide (method = GET)) as [->|Hne]; [done|].
      rewrite found_only_GET in Hlink by done. by apply not_elem_of_empty in Hlink.
    + intros u d [H|(link & [= -> ->] & Hlink)%elem_of_puts]%elem_of_app.
      * destruct (Hpar _ _ H) as [?|(parent & ? & ?)]; [by left|right].
        exists parent. split; [apply elem_of_app; by left|done].
      * right. exists url. replace (depth + 1 - 1) with depth by lia.
        split; [apply elem_of_app; by left|].
        rewrite Horder in Hlink. apply elem_of_elements in Hlink.
        destruct (decide (method = GET)) as [->|Hne]; [done|].
        rewrite found_only_GET in Hlink by done. by apply not_elem_of_empty in Hlink.
    + intros u d. rewrite Hq', !elem_of_app, elem_of_linked, elem_of_puts.
      intros [H|(link & [= -> ->] & Hlink)].
      * destruct (Hcov _ _ H) as [?|[?|?]]; auto.
      * left. right. done.
Qed.

Lemma execution_traced start depth_limit workers trace r :
  execution start depth_limit workers trace r →
  traced start depth_limit trace r.
Proof.
  induction 1; [apply start_traced|by eapply step_traced].
Qed.

(** ** Deduplication *)

(** C1, as the code has it. An address enters the visited set when a
    worker starts to process it (the item was popped and passed the guard
    of [process_url]), not when it is put on the queue: in every execution
    the visited set is the set of addresses whose processing has started,
    and no address starts twice. The queue itself is not deduplicated. *)
Theorem visited_when_processing_starts start depth_limit workers trace r :
  execution start depth_limit workers trace r →
  (∀ url, url ∈ visited (spider r) ↔ url ∈ started trace)
  ∧ NoDup (started trace).
Proof.
  intros [] %execution_traced. done.
Qed.

(** C8, as the code has it. However often an address is discovered, its
    processing starts at most once; an item is skipped (silently: the
    worker marks it done and goes on) only when its address was processed
    before or when it lies beyond the depth bound; and once [join] may
    return, every address that was put at a depth within the bound has
    been processed. *)
Theorem duplicate_discovery_skipped start depth_limit workers trace r :
  execution start depth_limit workers trace r →
  NoDup (started trace)
  ∧ (∀ url depth,
       Skip url depth ∈ trace → url ∈ started trace ∨ depth_limit < depth)
  ∧ (joined r = true →
     ∀ url depth,
       Put url depth ∈ trace → depth ≤ depth_limit → url ∈ started trace).
Proof.
  intros Hex. pose proof (execution_counted _ _ _ _ _ Hex) as Hc.
  apply execution_traced in Hex as [].
  split; [done|]. split; [done|].
  intros Hj url depth Hput Hdepth.
  apply joined_counted in Hj as [Hq _]; [|done].
  destruct (traced_covered0 _ _ Hput) as [Hin|[?|?]]; [|done|lia].
  rewrite Hq in Hin. by apply elem_of_nil in Hin.
Qed.

(** ** The depth bound *)

(** C3, as the code has it. Links are put on the queue without any test
    of their depth: an item put is the seed at depth 0 or a link of a page
    that passed the guard one level above, so its depth is at most
    [max_depth + 1]. The bound is applied when an item is popped: only
    items of depth at most [max_depth] pass the guard, and with
    [max_depth = 0] every result is a result for the seed. *)
Theorem depth_checked_when_popped start depth_limit workers trace r :
  execution start depth_limit workers trace r →
  (∀ url depth,
     Put url depth ∈ trace →
     (url = start ∧ depth = 0)
     ∨ (1 ≤ depth ≤ depth_limit + 1
        ∧ ∃ parent, Start parent (depth - 1) ∈ trace ∧ url ∈ links_of parent))
  ∧ (∀ url depth, Start url depth ∈ trace → 0 ≤ depth ≤ depth_limit)
  ∧ (depth_limit = 0 → ∀ o, o ∈ results (spider r) → o_url o = start).
Proof.
  intros [] %execution_traced.
  assert (∀ url depth, Start url depth ∈ trace → 0 ≤ depth ≤ depth_limit) as Hstart.
  { intros url depth [Hput ?]%traced_start_put0.
    destruct (traced_walk0 _ _ Hput) as (n & -> & _). lia. }
  split; [|split; [done|]].
  - intros url depth Hput.
    destruct (traced_parent0 _ _ Hput) as [?|(parent & Hp & Hl)]; [by left|right].
    split; [|by exists parent]. specialize (Hstart _ _ Hp). lia.
  - intros -> o [depth Hs]%traced_results0%elem_of_started.
    pose proof (Hstart _ _ Hs) as Hd.
    destruct (traced_start_put0 _ _ Hs) as [Hput _].
    destruct (traced_walk0 _ _ Hput) as (n & Hn & Hw).
    assert (n = 0%nat) as -> by lia. by apply walk_zero in Hw.
Qed.

(** C4. No item of depth greater than [max_depth] passes the guard of
    [process_url]; and an address that every walk from the seed reaches
    only after more than [max_depth] links is never processed: no result
    for it is ever appended. *)
Theorem no_outcome_beyond_max_depth start depth_limit workers trace r url :
  execution start depth_limit workers trace r →
  (∀ n, walk start n url → depth_limit < Z.of_nat n) →
  (∀ u depth, Start u depth ∈ trace → depth ≤ depth_limit)
  ∧ (url ∉ started trace)
  ∧ (∀ o, o ∈ results (spider r) → o_url o ≠ url).
Proof.
  intros [] %execution_traced Hfar.
  assert (url ∉ started trace) as Hnot.
  { intros [depth Hs]%elem_of_started.
    destruct (traced_start_put0 _ _ Hs) as [Hput Hd].
    destruct (traced_walk0 _ _ Hput) as (n & -> & Hw).
    specialize (Hfar _ Hw). lia. }
  split; [|split; [done|]].
  - intros u depth Hs. by destruct (traced_start_put0 _ _ Hs).
  - intros o Ho <-. by apply traced_results0 in Ho.
Qed.

(** ** [process_url] on its own *)

(** C10. [process_url] called on an address of the visited set, or with a
    depth above [max_depth], falls through its first line: the spider it
    leaves is the spider it was given, visited set, results and queue
    included. *)
Theorem process_url_skip_is_noop self url depth :
  url ∈ visited self ∨ max_depth self < depth →
  process_url self url depth = Normal self.
Proof.
  intros H%skips_true. unfold process_url. by rewrite H.
Qed.

(** C2, as the code has it. A turn of the loop appends a record exactly
    when [fetch] returned a status; when [fetch] failed the turn leaves
    the spider as it was (no record at all) and the loop goes on with the
    next method. *)
Theorem failed_probe_leaves_no_record self url depth method order :
  match fetch url method with
  | Some (status, _, headers) =>
      results (after_turn (probe self url depth method order))
      = results self ++ [mkOutcome url method status headers]
  | None => probe self url depth method order = Normal self
  end.
Proof.
  unfold probe. destruct (fetch url method) as [[[st content] hdrs]|]; [|done].
  destruct (follows method content hdrs); [|done].
  destruct (extract_links content url); simpl; [|done].
  rewrite put_links_spec. done.
Qed.

(** ** Link extraction *)

Lemma extract_link_spec base_url acc tag links :
  extract_link base_url acc tag = Some links →
  ∀ url, url ∈ links ↔ url ∈ acc ∨ normalizes base_url tag url.
Proof.
  unfold extract_link, normalizes, is_valid. intros H url.
  destruct (tag_get (tag_attrs tag) (link_attr tag)) as [link|] eqn:Hget.
  - destruct (truthy link) eqn:Htruthy.
    + destruct (urljoin base_url link) as [full|] eqn:Hjoin; [|done]. simpl in H.
      destruct (urldefrag full) as [[parsed frag]|] eqn:Hdefrag; [|done]. simpl in H.
      destruct (urlparse parsed) as [p|] eqn:Hparse; [|done]. simpl in H.
      case_bool_decide as Hscheme; simplify_eq.
      * rewrite elem_of_union, elem_of_singleton. split.
        -- intros [->|?]; [right|by left]. by exists link, full, frag, p.
        -- intros [?|(raw & full' & frag' & p' & ? & _ & ? & ? & _)]; [by right|left].
           by simplify_eq.
      * split; [by left|]. intros [?|(raw & full' & frag' & p' & ? & _ & ? & ? & ? & ?)]; [done|].
        by simplify_eq.
    + simplify_eq. split; [by left|].
      intros [?|(raw & full' & frag' & p' & ? & ? & _)]; [done|]. congruence.
  - simplify_eq. split; [by left|].
    intros [?|(raw & full' & frag' & p' & ? & _)]; [done|]. congruence.
Qed.

Lemma extract_from_spec base_url tags : ∀ acc links,
  extract_from base_url acc tags = Some links →
  ∀ url, url ∈ links ↔ url ∈ acc ∨ ∃ tag, tag ∈ tags ∧ normalizes base_url tag url.
Proof.
  induction tags as [|tag tags IH]; intros acc links H url; simpl in H.
  - simplify_eq. split; [by left|]. intros [?|(tag & ?%elem_of_nil & _)]; done.
  - destruct (extract_link base_url acc tag) as [acc'|] eqn:Hlink; [|done]. simpl in H.
    rewrite (IH _ _ H), (extract_link_spec _ _ _ _ Hlink). split.
    + intros [[?|?]|(t & ? & ?)]; [by left|right; exists tag|right; exists t].
      * split; [by left|done].
      * split; [by right|done].
    + intros [?|(t & [->|?]%elem_of_cons & ?)]; [by left; left|by left; right|right].
      by exists t.
Qed.


(** ** Construction *)

Lemma no_worker_no_step start depth_limit workers trace r :
  workers ≤ 0 →
  execution start depth_limit workers trace r →
  trace = [Put start 0] ∧ r = start_run (init start depth_limit workers).
Proof.
  intros Hw. induction 1 as [|trace r events r' _ [-> ->] Hstep]; [done|].
  exfalso. unfold start_run in Hstep. simpl in Hstep.
  replace (Z.to_nat workers) with 0%nat in Hstep by lia.
  inversion Hstep; simplify_eq/=.
Qed.

(** C6, as the code has it. [__init__] tests nothing: whatever the seed
    and the numbers, it returns a spider with the seed queued at depth 0,
    nothing visited and no result. With at least one worker and a
    non-negative depth bound the seed passes the guard of [process_url]
    and its probing begins, whatever its scheme ([is_valid] is only applied
    to extracted links). With a concurrency of zero or less no worker
    exists: no step is ever taken and [join] cannot return. *)
Theorem init_accepts_every_configuration start depth_limit workers :
  Queue.items (queue (init start depth_limit workers)) = [(start, 0)]
  ∧ visited (init start depth_limit workers) = ∅
  ∧ results (init start depth_limit workers) = []
  ∧ (0 < workers → 0 ≤ depth_limit →
     ∃ r, step (start_run (init start depth_limit workers)) [Start start 0] r
          ∧ tasks r !! 0%nat = Some (Fetching start 0 methods)
          ∧ start ∈ visited (spider r))
  ∧ (workers ≤ 0 →
     ∀ trace r,
       execution start depth_limit workers trace r →
       trace = [Put start 0]
       ∧ r = start_run (init start depth_limit workers)
       ∧ joined r = false).
Proof.
  split; [done|]. split; [done|]. split; [done|]. split.
  - intros Hw Hd.
    assert (tasks (start_run (init start depth_limit workers)) !! 0%nat
            = Some Waiting) as H0.
    { simpl. apply lookup_replicate_2. lia. }
    eexists. split; [|split].
    + eapply (step_start _ 0%nat start 0); [done|reflexivity|].
      apply skips_false. simpl. split; [apply not_elem_of_empty|lia].
    + simpl. apply list_lookup_insert_eq. rewrite length_replicate. lia.
    + simpl. apply elem_of_union. left. by apply elem_of_singleton.
  - intros Hw trace r Hex.
    destruct (no_worker_no_step _ _ _ _ _ Hw Hex) as [-> ->]. done.
Qed.

(** ** What the log holds *)

Lemma all_methods method : method ∈ methods.
Proof. by destruct method; apply (bool_decide_unpack _). Qed.

Lemma NoDup_methods : NoDup methods.
Proof. by apply (bool_decide_unpack _). Qed.

Lemma suffix_methods_head method rest :
  (method :: rest) `suffix_of` methods →
  rest `suffix_of` methods
  ∧ (method ∉ rest)
  ∧ (method :: rest = methods → method = GET).
Proof.
  intros Hsuf. split; [by eapply suffix_cons_l|]. split.
  - destruct Hsuf as [k Hk]. pose proof NoDup_methods as Hnd. rewrite Hk in Hnd.
    apply NoDup_app in Hnd as (_ & _ & Hnd). by apply NoDup_cons in Hnd as [? _].
  - unfold methods. by intros [= -> _].
Qed.

Lemma pairs_app l1 l2 : pairs (l1 ++ l2) = pairs l1 ++ pairs l2.
Proof. unfold pairs. apply fmap_app. Qed.

Lemma pairs_recorded url method url' method' :
  (url, method) ∈ pairs (recorded url' method')
  ↔ url = url' ∧ method = method' ∧ is_Some (fetch url' method').
Proof.
  unfold recorded. destruct (fetch url' method') as [[[st content] hdrs]|]; simpl.
  - rewrite list_elem_of_singleton. split.
    + intros [= -> ->]. eauto.
    + by intros (-> & -> & _).
  - split; [by intros ?%elem_of_nil|]. by intros (_ & _ & []%is_Some_None).
Qed.

Lemma start_logged start depth_limit workers :
  logged (start_run (init start depth_limit workers)).
Proof.
  split; simpl.
  - intros i url depth todo [[=] _]%lookup_replicate.
  - intros i j url depth depth' todo todo' [[=] _]%lookup_replicate.
  - intros url method. split; [by intros ?%elem_of_nil|].
    by intros [?%not_elem_of_empty _].
Qed.

Lemma step_logged r events r' : logged r → step r events r' → logged r'.
Proof.
  intros [Htasks Huniq Hpairs] Hstep.
  destruct Hstep as [r i url depth q self' Hi Hget Hskip Hfin
                    |r i url depth q Hi Hget Hskip
                    |r i url depth method rest order self' task' Hi Horder Hnext].
  - (* a popped item fails the guard *)
    apply finish_Some in Hfin as [_ ->]. by split.
  - (* a popped item passes the guard *)
    apply skips_false in Hskip as [Hnew _].
    assert (∀ j u d todo,
              <[i := Fetching url depth methods]> (tasks r) !! j
              = Some (Fetching u d todo) →
              (j = i ∧ u = url ∧ todo = methods)
              ∨ (j ≠ i ∧ u ≠ url ∧ tasks r !! j = Some (Fetching u d todo)))
      as Hlook.
    { intros j u d todo H. destruct (decide (i = j)) as [->|Hne].
      - rewrite list_lookup_insert_eq in H by (by eapply lookup_lt_Some).
        simplify_eq. by left.
      - rewrite list_lookup_insert_ne in H by done. right.
        split; [done|]. split; [|done]. intros ->.
        by destruct (Htasks _ _ _ _ H) as [? _]. }
    split; simpl.
    + intros j u d todo [(-> & -> & ->)|(_ & _ & H)]%Hlook.
      * split; [apply elem_of_union; left; by apply elem_of_singleton|].
        split; [done|by left].
      * destruct (Htasks _ _ _ _ H) as (? & ? & ?).
        split; [apply elem_of_union; by right|done].
    + intros j k u d d' todo todo'
        [(-> & -> & ->)|(? & ? & H1)]%Hlook [(-> & ? & ?)|(? & ? & H2)]%Hlook;
        try done. by eapply Huniq.
    + intros u m. rewrite Hpairs, elem_of_union, elem_of_singleton.
      destruct (decide (u = url)) as [->|Hne].
      * split; [by intros [? _]|]. intros (_ & _ & _ & Hnp). exfalso. apply Hnp.
        exists i, depth, methods. split; [|apply all_methods].
        apply list_lookup_insert_eq. by eapply lookup_lt_Some.
      * assert (pending (mkRun (add_visited (set_queue (spider r) q) url)
                           (<[i := Fetching url depth methods]> (tasks r))) u m
                ↔ pending r u m) as ->.
        { unfold pending. simpl. split.
          - intros (j & d & todo & [(_ & ? & _)|(_ & _ & H)]%Hlook & ?); [done|].
            by exists j, d, todo.
          - intros (j & d & todo & H & ?). exists j, d, todo. split; [|done].
            rewrite list_lookup_insert_ne; [done|]. intros ->. congruence. }
        tauto.
  - (* a fetch completes *)
    destruct (Htasks _ _ _ _ Hi) as (Hvis & Hsuf & Hhead).
    apply suffix_methods_head in Hsuf as (Hsuf & Hfresh & Hfirst).
    assert (∃ q', self' = mkSpider (start_url (spider r)) (max_depth (spider r))
                     (concurrency (spider r)) (visited (spider r))
                     (results (spider r) ++ recorded url method) q')
      as (q' & ->).
    { apply next_task_inv in Hnext as [(_ & Hfin & _)|(_ & -> & _)];
        rewrite probe_spec in * by done.
      - apply finish_Some in Hfin as [_ ->].
        destruct (raises url method); simpl; by eexists.
      - destruct (raises url method); simpl; by eexists. }
    assert ((task' = Waiting ∧ (rest = [] ∨ raises url method = true))
            ∨ (task' = Fetching url depth rest ∧ raises url method = false))
      as Htask.
    { apply next_task_inv in Hnext as [(-> & _ & Hwhy)|(-> & _ & _ & self & Hn)];
        rewrite probe_spec in * by done.
      - left. split; [done|]. destruct Hwhy as [?|[self Hr]]; [by left|right].
        by destruct (raises url method).
      - right. split; [done|]. by destruct (raises url method). }
    clear Hnext.
    assert (raises url method = false → raises url GET = false) as Hnormal.
    { intros Hr. destruct (decide (method = GET)) as [->|Hne]; [done|].
      destruct Hhead as [?|?]; [|done]. by destruct Hne; apply Hfirst. }
    assert (∀ j u d todo,
              <[i := task']> (tasks r) !! j = Some (Fetching u d todo) →
              (j = i ∧ u = url ∧ d = depth ∧ todo = rest
               ∧ task' = Fetching url depth rest)
              ∨ (j ≠ i ∧ tasks r !! j = Some (Fetching u d todo)))
      as Hlook.
    { intros j u d todo H. destruct (decide (i = j)) as [->|Hne].
      - rewrite list_lookup_insert_eq in H by (by eapply lookup_lt_Some).
        destruct Htask as [[-> _]|[-> _]]; simplify_eq. by left.
      - rewrite list_lookup_insert_ne in H by done. by right. }
    split; simpl.
    + intros j u d todo [(-> & -> & -> & -> & ->)|(_ & H)]%Hlook; [|eauto].
      split; [done|]. split; [done|]. right.
      destruct Htask as [[[=] _]|[_ ?]]. auto.
    + intros j k u d d' todo todo'
        [(-> & -> & _)|(Hj & H1)]%Hlook
        [(-> & ? & _)|(Hk & H2)]%Hlook; try done; simplify_eq.
      * destruct Hk. symmetry. by eapply Huniq.
      * destruct Hj. by eapply Huniq.
      * by eapply Huniq.
    + intros u m. rewrite pairs_app, elem_of_app, pairs_recorded, Hpairs.
      assert (pending r url method) as Hpend.
      { exists i, depth, (method :: rest). split; [done|by left]. }
      destruct (decide (u = url)) as [->|Hne].
      * assert (∀ m0, pending r url m0 ↔ m0 ∈ method :: rest) as Hold.
        { intros m0. split.
          - intros (j & d & todo & H & ?).
            assert (j = i) as -> by (by eapply Huniq). by simplify_eq.
          - intros ?. by exists i, depth, (method :: rest). }
        assert (∀ m0, pending (mkRun
                   (mkSpider (start_url (spider r)) (max_depth (spider r))
                      (concurrency (spider r)) (visited (spider r))
                      (results (spider r) ++ recorded url method) q')
                   (<[i := task']> (tasks r))) url m0
                 ↔ task' = Fetching url depth rest ∧ m0 ∈ rest) as Hnew.
        { intros m0. unfold pending. simpl. split.
          - intros (j & d & todo & [(-> & _ & -> & -> & ?)|(Hj & H)]%Hlook & ?); [done|].
            destruct Hj. by eapply Huniq.
          - intros [-> ?]. exists i, depth, rest. split; [|done].
            apply list_lookup_insert_eq. by eapply lookup_lt_Some. }
        rewrite Hnew, Hold. destruct (decide (m = method)) as [->|Hm].
        -- split.
           ++ intros [(_ & _ & _ & Hnp)|(_ & _ & Hsome)].
              { destruct Hnp. by left. }
              split; [done|]. split; [done|]. split; [|by intros [_ ?]].
              unfold attempted. destruct (raises url method) eqn:Hr.
              ** pose proof (raises_only_GET _ _ Hr) as ->. rewrite Hr. by left.
              ** rewrite (Hnormal eq_refl). apply all_methods.
           ++ intros (_ & Hsome & _). by right.
        -- rewrite elem_of_cons. split.
           ++ intros [(? & ? & ? & Hnp)|(_ & ? & _)]; [|done].
              split; [done|]. split; [done|]. split; [done|].
              intros [_ ?]. apply Hnp. by right.
           ++ intros (? & ? & Hatt & Hnp). left.
              split; [done|]. split; [done|]. split; [done|].
              intros [?|Hin]; [done|].
              destruct Htask as [[_ [->|Hr]]|[-> _]].
              ** by apply elem_of_nil in Hin.
              ** pose proof (raises_only_GET _ _ Hr) as ->.
                 unfold attempted in Hatt. rewrite Hr in Hatt.
                 by apply list_elem_of_singleton in Hatt.
              ** by apply Hnp.
      * assert (pending (mkRun
                   (mkSpider (start_url (spider r)) (max_depth (spider r))
                      (concurrency (spider r)) (visited (spider r))
                      (results (spider r) ++ recorded url method) q')
                   (<[i := task']> (tasks r))) u m
                ↔ pending r u m) as ->.
        { unfold pending. simpl. split.
          - intros (j & d & todo & [(_ & ? & _)|(_ & H)]%Hlook & ?); [done|].
            by exists j, d, todo.
          - intros (j & d & todo & H & ?). exists j, d, todo. split; [|done].
            rewrite list_lookup_insert_ne; [done|]. intros ->. congruence. }
        split; [intros [?|(? & _)]; done|by left].
Qed.

Lemma execution_logged start depth_limit workers trace r :
  execution start depth_limit workers trace r → logged r.
Proof.
  induction 1; [apply start_logged|by eapply step_logged].
Qed.

Lemma joined_not_pending r url method :
  counted r → joined r = true → ¬ pending r url method.
Proof.
  intros Hc [_ Hall]%joined_counted (i & depth & todo & Hi & _); [|done].
  rewrite Forall_lookup in Hall. by specialize (Hall _ _ Hi).
Qed.

(** C9, as the code has it. Once [join] may return, the (address, method)
    pairs of the log are the pairs of a visited address and of a method
    whose turn was run and obtained a status, and every such address is
    within [max_depth] links of the seed. Two runs, whatever their numbers
    of workers and their interleavings, therefore end with the same set of
    pairs whenever they end with the same visited set; the visited set
    itself depends on the interleaving. *)
Theorem results_determined_by_visited
    start depth_limit workers1 workers2 trace1 trace2 r1 r2 :
  execution start depth_limit workers1 trace1 r1 →
  execution start depth_limit workers2 trace2 r2 →
  joined r1 = true →
  joined r2 = true →
  visited (spider r1) = visited (spider r2) →
  ∀ url method,
    ((url, method) ∈ pairs (results (spider r1))
     ↔ url ∈ visited (spider r1)
       ∧ is_Some (fetch url method) ∧ method ∈ attempted url)
    ∧ ((url, method) ∈ pairs (results (spider r1))
       → ∃ n, Z.of_nat n ≤ depth_limit ∧ walk start n url)
    ∧ ((url, method) ∈ pairs (results (spider r1))
       ↔ (url, method) ∈ pairs (results (spider r2))).
Proof.
  intros Hex1 Hex2 Hj1 Hj2 Hvis url method.
  assert (∀ workers trace r,
            execution start depth_limit workers trace r → joined r = true →
            (url, method) ∈ pairs (results (spider r))
            ↔ url ∈ visited (spider r)
              ∧ is_Some (fetch url method) ∧ method ∈ attempted url) as Hshape.
  { intros workers trace r Hex Hj.
    pose proof (joined_not_pending r url method (execution_counted _ _ _ _ _ Hex) Hj).
    destruct (execution_logged _ _ _ _ _ Hex) as [_ _ Hpairs].
    rewrite Hpairs. tauto. }
  split; [by eapply Hshape|]. split.
  - intros [Hin _]%(Hshape _ _ _ Hex1 Hj1).
    destruct (execution_traced _ _ _ _ _ Hex1) as [].
    apply traced_visited0, elem_of_started in Hin as [depth Hs].
    destruct (traced_start_put0 _ _ Hs) as [Hput Hd].
    destruct (traced_walk0 _ _ Hput) as (n & -> & Hw). by exists n.
  - rewrite (Hshape _ _ _ Hex1 Hj1), (Hshape _ _ _ Hex2 Hj2), Hvis. done.
Qed.

(** ** Termination *)

Lemma within_S start n url : url ∈ within start n → url ∈ within start (S n).
Proof. intros H. simpl. apply elem_of_union. by left. Qed.

Lemma within_le start n k url :
  (n ≤ k)%nat → url ∈ within start n → url ∈ within start k.
Proof.
  induction 1 as [|k _ IH]; [done|]. intros Hn. by apply within_S, IH.
Qed.

Lemma walk_within start n url : walk start n url → url ∈ within start n.
Proof.
  induction 1 as [|n u v _ IH Hv]; simpl.
  - by apply elem_of_singleton.
  - apply elem_of_union. right. apply elem_of_union_list.
    exists (links_of u). split; [|done].
    apply list_elem_of_fmap. exists u. split; [done|]. by apply elem_of_elements.
Qed.

Lemma task_cost_insert ts : ∀ i old new,
  ts !! i = Some old →
  (sum_list_with task_cost (<[i := new]> ts) + task_cost old
   = sum_list_with task_cost ts + task_cost new)%nat.
Proof.
  induction ts as [|t ts IH]; intros [|i] old new; simpl; try done.
  - intros [= ->]. lia.
  - intros H. specialize (IH _ _ new H). lia.
Qed.

Lemma length_linked order depth : length (linked order depth) = length order.
Proof. unfold linked. apply length_fmap. Qed.

Lemma step_potential start depth_limit trace r events r' :
  traced start depth_limit trace r →
  logged r →
  step r events r' →
  (potential start depth_limit r' < potential start depth_limit r)%nat.
Proof.
  intros [_ Hl Hitems _ _ _ _ _ _ Hwalk _ _] [Htasks _ _] Hstep.
  unfold potential.
  destruct Hstep as [r i url depth q self' Hi Hget Hskip Hfin
                    |r i url depth q Hi Hget Hskip
                    |r i url depth method rest order self' task' Hi Horder Hnext].
  - (* a popped item fails the guard *)
    apply get_Some in Hget as [Hq _]. apply finish_Some in Hfin as [_ ->].
    simpl. rewrite Hq. simpl. lia.
  - (* a popped item passes the guard *)
    apply get_Some in Hget as [Hq _].
    apply skips_false in Hskip as [Hnew Hdepth]. rewrite Hl in Hdepth.
    assert (url ∈ within start (Z.to_nat depth_limit)) as Hin.
    { destruct (Hwalk url depth) as (n & -> & Hw).
      - apply Hitems. rewrite Hq. by left.
      - eapply within_le; [|by apply walk_within]. lia. }
    simpl. rewrite Hq. simpl.
    pose proof (task_cost_insert _ _ _ (Fetching url depth methods) Hi) as Hsum.
    simpl in Hsum.
    set (W := within start (Z.to_nat depth_limit)) in *.
    assert (elements (W ∖ visited (spider r))
            ≡ₚ url :: elements (W ∖ ({[url]} ∪ visited (spider r)))) as ->.
    { rewrite <- elements_union_singleton.
      - apply elements_proper. intros x.
        rewrite elem_of_union, !elem_of_difference, elem_of_union, elem_of_singleton.
        destruct (decide (x = url)) as [->|?]; tauto.
      - rewrite elem_of_difference, elem_of_union, elem_of_singleton. tauto. }
    set (others := elements (W ∖ ({[url]} ∪ visited (spider r)))).
    change (sum_list_with cost (url :: others))
      with (todo_cost url methods + sum_list_with cost others)%nat.
    lia.
  - (* a fetch completes *)
    destruct (Htasks _ _ _ _ Hi) as (_ & Hsuf & _).
    apply suffix_methods_head in Hsuf as (_ & Hfresh & _).
    pose proof (task_cost_insert _ _ _ task' Hi) as Hsum. simpl in Hsum.
    assert (length order = size (found url method)) as Hlen.
    { by rewrite Horder. }
    assert (visited self' = visited (spider r)
            ∧ Queue.items (queue self')
              = Queue.items (queue (spider r)) ++ linked order depth) as [Hv Hq].
    { apply next_task_inv in Hnext as [(_ & Hfin & _)|(_ & -> & _)];
        rewrite probe_spec in * by done.
      - apply finish_Some in Hfin as [_ ->]. by destruct (raises url method).
      - by destruct (raises url method). }
    assert (task' = Waiting ∨ task' = Fetching url depth rest) as Htask.
    { apply next_task_inv in Hnext as [(-> & _)|(-> & _)]; auto. }
    simpl. rewrite Hv, Hq, length_app, length_linked, Hlen.
    assert (todo_cost url (method :: rest)
            = S (size (found url method) + todo_cost url rest)) as Hcost.
    { unfold todo_cost. simpl. destruct (decide (method = GET)) as [->|Hne].
      - rewrite (bool_decide_eq_true_2 (GET ∈ GET :: rest)) by (by left).
        rewrite (bool_decide_eq_false_2 (GET ∈ rest)) by done.
        unfold links_of. lia.
      - rewrite found_only_GET, size_empty by done.
        assert (bool_decide (GET ∈ method :: rest) = bool_decide (GET ∈ rest)) as ->.
        { apply bool_decide_ext. rewrite elem_of_cons.
          split; [intros [?|?]; [congruence|done]|by right]. }
        lia. }
    rewrite Hcost in Hsum. destruct Htask as [-> | ->]; simpl in Hsum; lia.
Qed.

Lemma start_staffed start depth_limit workers :
  staffed workers (start_run (init start depth_limit workers)).
Proof.
  split; simpl; [apply length_replicate|].
  intros i url depth todo [[=] _]%lookup_replicate.
Qed.

Lemma step_staffed workers r events r' :
  staffed workers r → step r events r' → staffed workers r'.
Proof.
  intros [Hlen Htodo] Hstep.
  destruct Hstep as [r i url depth q self' Hi Hget Hskip Hfin
                    |r i url depth q Hi Hget Hskip
                    |r i url depth method rest order self' task' Hi Horder Hnext].
  - done.
  - split; simpl; [by rewrite length_insert|].
    intros j u d todo H. destruct (decide (i = j)) as [->|Hne].
    + rewrite list_lookup_insert_eq in H by (by eapply lookup_lt_Some).
      by simplify_eq.
    + rewrite list_lookup_insert_ne in H by done. eauto.
  - split; simpl; [by rewrite length_insert|].
    intros j u d todo H. destruct (decide (i = j)) as [->|Hne].
    + rewrite list_lookup_insert_eq in H by (by eapply lookup_lt_Some).
      apply next_task_inv in Hnext as [(-> & _)|(-> & _ & ? & _)]; by simplify_eq.
    + rewrite list_lookup_insert_ne in H by done. eauto.
Qed.

Lemma execution_staffed start depth_limit workers trace r :
  execution start depth_limit workers trace r → staffed workers r.
Proof.
  induction 1; [apply start_staffed|by eapply step_staffed].
Qed.

Lemma busy_positive ts :
  busy ts ≠ 0 → ∃ i url depth todo, ts !! i = Some (Fetching url depth todo).
Proof.
  induction ts as [|[|url depth todo] ts IH]; simpl; [done| |].
  - intros H. destruct IH as (i & u & d & todo & Hi); [lia|].
    by exists (S i), u, d, todo.
  - intros _. by exists 0%nat, url, depth, todo.
Qed.

(** Until [join] may return, some worker has a step to take. *)
Lemma run_goes_on start depth_limit workers trace r :
  0 < workers →
  execution start depth_limit workers trace r →
  joined r = false →
  ∃ events r', step r events r'.
Proof.
  intros Hw Hex Hj.
  pose proof (execution_counted _ _ _ _ _ Hex) as Hc.
  destruct (execution_staffed _ _ _ _ _ Hex) as [Hlen Htodo].
  assert (∃ i, is_Some (exec_step r i)) as (i & [[events r'] Hi]).
  { destruct (decide (busy (tasks r) = 0)) as [Hidle|Hbusy].
    - apply busy_zero in Hidle. rewrite Forall_lookup in Hidle.
      destruct (tasks r !! 0%nat) as [t|] eqn:H0.
      + exists 0%nat. eapply worker_has_step; [done|]. left.
        rewrite (Hidle _ _ H0) in H0. split; [done|]. intros Hq.
        unfold joined, Queue.join_returns in Hj. apply Z.eqb_neq in Hj.
        apply Hj. rewrite Hc, Hq. simpl.
        apply busy_zero. by apply Forall_lookup.
      + apply lookup_ge_None in H0. lia.
    - apply busy_positive in Hbusy as (i & url & depth & todo & Hi).
      exists i. eapply worker_has_step; [done|]. right.
      destruct todo as [|method rest]; [by destruct (Htodo _ _ _ _ Hi)|].
      by exists url, depth, method, rest. }
  exists events, r'. by apply (exec_step_sound _ i).
Qed.

(** No run takes more steps than its potential. *)
Lemma steps_bounded start depth_limit workers r n r' :
  steps r n r' →
  ∀ trace,
    execution start depth_limit workers trace r →
    (n + potential start depth_limit r' ≤ potential start depth_limit r)%nat.
Proof.
  induction 1 as [r|r events r1 n r2 Hstep _ IH]; intros trace Hex; [simpl; lia|].
  pose proof (step_potential _ _ _ _ _ _
                (execution_traced _ _ _ _ _ Hex) (execution_logged _ _ _ _ _ Hex)
                Hstep).
  specialize (IH _ (execution_step _ _ _ _ _ _ _ Hex Hstep)). lia.
Qed.

(** C5. The traversal terminates, and [queue.join()] returns exactly at
    quiescence. In every execution [join] may return exactly in the states
    where the queue is empty and every worker is back in [queue.get()]:
    the counter [join] waits on counts the queued items together with the
    items popped and not yet marked done. So [join] does not return while
    a worker still holds an item (and may put more), and once it may
    return no worker has a step left to take. Until then some worker has
    a step to take (given there is a worker at all), and the steps a run
    can still take are bounded by its potential. *)
Theorem join_returns_at_quiescence start depth_limit workers trace r :
  execution start depth_limit workers trace r →
  (joined r = true
   ↔ Queue.items (queue (spider r)) = [] ∧ Forall (λ t, t = Waiting) (tasks r))
  ∧ (∀ i url depth todo,
       tasks r !! i = Some (Fetching url depth todo) → joined r = false)
  ∧ (joined r = true → ∀ events r', ¬ step r events r')
  ∧ (0 < workers → joined r = false → ∃ events r', step r events r')
  ∧ (∀ n r', steps r n r' → (n ≤ potential start depth_limit r)%nat).
Proof.
  intros Hex. pose proof (execution_counted _ _ _ _ _ Hex) as Hc.
  pose proof (joined_counted r Hc) as Hiff.
  split; [done|]. split; [|split; [|split]].
  - intros i url depth todo Hi. apply not_true_is_false. intros Hj.
    apply Hiff in Hj as [_ Hall]. rewrite Forall_lookup in Hall.
    by specialize (Hall _ _ Hi).
  - intros Hj events r' Hstep. apply Hiff in Hj as [Hq Hall].
    rewrite Forall_lookup in Hall.
    destruct Hstep as [r i url depth q self' Hi Hget _ _
                      |r i url depth q Hi Hget _
                      |r i url depth method rest order self' task' Hi _ _].
    + apply get_Some in Hget as [Hitems _]. congruence.
    + apply get_Some in Hget as [Hitems _]. congruence.
    + by specialize (Hall _ _ Hi).
  - intros Hw Hj. by eapply run_goes_on.
  - intros n r' Hsteps. pose proof (steps_bounded _ _ _ _ _ _ Hsteps _ Hex). lia.
Qed.

(** ** The log and the visited set along a run *)

(** What one step does to the spider: the configuration stays, the visited
    set grows by at most the address that passed the guard, and the log
    grows by at most the record of the turn whose fetch returned. *)
Lemma step_spider r events r' :
  step r events r' →
  start_url (spider r') = start_url (spider r)
  ∧ max_depth (spider r') = max_depth (spider r)
  ∧ concurrency (spider r') = concurrency (spider r)
  ∧ visited (spider r) ⊆ visited (spider r')
  ∧ ∃ new,
      results (spider r') = results (spider r) ++ new
      ∧ (new = []
         ∨ ∃ i url depth method rest,
             tasks r !! i = Some (Fetching url depth (method :: rest))
             ∧ new = recorded url method).
Proof.
  intros Hstep.
  destruct Hstep as [r i url depth q self' Hi Hget Hskip Hfin
                    |r i url depth q Hi Hget Hskip
                    |r i url depth method rest order self' task' Hi Horder Hnext].
  - apply finish_Some in Hfin as [_ ->]. simpl.
    repeat (split; [done|]). exists []. by rewrite app_nil_r; auto.
  - simpl. do 3 (split; [done|]).
    split; [intros x ?; apply elem_of_union; by right|].
    exists []. by rewrite app_nil_r; auto.
  - assert (∃ q', self' = mkSpider (start_url (spider r)) (max_depth (spider r))
                     (concurrency (spider r)) (visited (spider r))
                     (results (spider r) ++ recorded url method) q')
      as (q' & ->).
    { apply next_task_inv in Hnext as [(_ & Hfin & _)|(_ & -> & _)];
        rewrite probe_spec in * by done.
      - apply finish_Some in Hfin as [_ ->].
        destruct (raises url method); simpl; by eexists.
      - destruct (raises url method); simpl; by eexists. }
    simpl. repeat (split; [done|]). eexists. split; [done|]. right.
    by exists i, url, depth, method, rest.
Qed.

Lemma steps_execution start depth_limit workers r n r' :
  steps r n r' →
  ∀ trace,
    execution start depth_limit workers trace r →
    ∃ trace', execution start depth_limit workers trace' r'.
Proof.
  induction 1 as [r|r events r1 n r2 Hstep _ IH]; intros trace Hex; [by exists trace|].
  eapply IH. by eapply execution_step.
Qed.

Lemma exec_steps schedule : ∀ r trace trace' r',
  exec r trace schedule = Some (trace', r') → steps r (length schedule) r'.
Proof.
  induction schedule as [|i schedule IH]; intros r trace trace' r' H; simpl in H.
  - simplify_eq. constructor.
  - destruct (exec_step r i) as [[events r1]|] eqn:Hstep; [|done]. simpl in *.
    econstructor; [by eapply exec_step_sound|by eapply IH].
Qed.

(** X4. Whatever steps a run takes, the log only grows at its end (what
    was appended stays, in place and unchanged), the visited set only
    grows, and the configuration is never assigned to. *)
Theorem log_is_append_only r n r' :
  steps r n r' →
  results (spider r) `prefix_of` results (spider r')
  ∧ visited (spider r) ⊆ visited (spider r')
  ∧ start_url (spider r') = start_url (spider r)
  ∧ max_depth (spider r') = max_depth (spider r)
  ∧ concurrency (spider r') = concurrency (spider r).
Proof.
  induction 1 as [r|r events r1 n r2 Hstep _ IH]; [done|].
  destruct (step_spider _ _ _ Hstep) as (Hs & Hm & Hc & Hv & new & Hr & _).
  destruct IH as (IHr & IHv & IHs & IHm & IHc).
  split; [|split; [by etrans|split; [congruence|split; congruence]]].
  etrans; [|done]. rewrite Hr. by apply prefix_app_r.
Qed.


Lemma execution_pairs_NoDup start depth_limit workers trace r :
  execution start depth_limit workers trace r →
  NoDup (pairs (results (spider r))).
Proof.
  induction 1 as [|trace r events r' Hex IH Hstep]; [constructor|].
  destruct (execution_logged _ _ _ _ _ Hex) as [_ _ Hpairs].
  destruct (step_spider _ _ _ Hstep) as (_ & _ & _ & _ & new & -> & Hnew).
  destruct Hnew as [->|(i & url & depth & method & rest & Hi & ->)];
    [by rewrite app_nil_r|].
  rewrite pairs_app. apply NoDup_app. split; [done|]. split.
  - intros [u m] Hin (-> & -> & _)%pairs_recorded.
    apply Hpairs in Hin as (_ & _ & _ & Hnp). apply Hnp.
    exists i, depth, (method :: rest). split; [done|by left].
  - unfold recorded. destruct (fetch url method) as [[[? ?] ?]|]; simpl.
    + apply NoDup_singleton.
    + constructor.
Qed.

(** X7. When the extraction of the links of a page raises, the exception
    leaves [process_url]: of that page only the GET is ever logged, the
    other methods are not tried, and the page yields no link. *)
Theorem extraction_failure_ends_processing start depth_limit workers trace r url :
  execution start depth_limit workers trace r →
  raises url GET = true →
  (∀ o, o ∈ results (spider r) → o_url o = url → o_method o = GET)
  ∧ links_of url = ∅.
Proof.
  intros Hex Hr. destruct (execution_logged _ _ _ _ _ Hex) as [_ _ Hpairs].
  split; [|by apply raises_found].
  - intros o Ho <-.
    assert ((o_url o, o_method o) ∈ pairs (results (spider r))) as Hin.
    { unfold pairs. apply list_elem_of_fmap. by exists o. }
    apply Hpairs in Hin as (_ & _ & Hatt & _).
    unfold attempted in Hatt. rewrite Hr in Hatt.
    by apply list_elem_of_singleton in Hatt.
Qed.

(** X8. With a negative depth bound the seed itself fails the guard:
    nothing is ever visited, probed or logged. *)
Theorem negative_depth_probes_nothing start depth_limit workers trace r :
  depth_limit < 0 →
  execution start depth_limit workers trace r →
  started trace = []
  ∧ visited (spider r) = ∅
  ∧ results (spider r) = [].
Proof.
  intros Hneg [] %execution_traced.
  assert (started trace = []) as Hnone.
  { destruct (started trace) as [|url rest] eqn:E; [done|].
    assert (url ∈ started trace) as [depth Hs]%elem_of_started
      by (rewrite E; by left).
    destruct (traced_start_put0 _ _ Hs) as [Hput ?].
    destruct (traced_walk0 _ _ Hput) as (n & -> & _). lia. }
  split; [done|]. split.
  - apply set_eq. intros url. rewrite traced_visited0, Hnone.
    split; [by intros ?%elem_of_nil|by intros ?%not_elem_of_empty].
  - destruct (results (spider r)) as [|o log] eqn:E; [done|].
    assert (o_url o ∈ started trace) as Hin by (apply traced_results0; by left).
    rewrite Hnone in Hin. by apply elem_of_nil in Hin.
Qed.

(** X9. The first address to pass the guard of [process_url] is the
    seed. *)
Theorem seed_is_processed_first start depth_limit workers trace r :
  execution start depth_limit workers trace r →
  ∀ url rest, started trace = url :: rest → url = start.
Proof.
  induction 1 as [|trace r events r' Hex IH Hstep]; [done|].
  destruct (execution_traced _ _ _ _ _ Hex) as [].
  destruct Hstep as [r i u depth q self' Hi Hget Hskip Hfin
                    |r i u depth q Hi Hget Hskip
                    |r i u depth method rest' order self' task' Hi Horder Hnext];
    rewrite started_app; simpl.
  - rewrite app_nil_r. apply IH.
  - intros url rest E. destruct (started trace) as [|first others] eqn:Hs.
    + simpl in E. simplify_eq.
      apply get_Some in Hget as [Hq _].
      assert (Put url depth ∈ trace) as Hput by (apply traced_items0; rewrite Hq; by left).
      destruct (traced_parent0 _ _ Hput) as [[? _]|(parent & Hp & _)]; [done|].
      assert (parent ∈ started trace) as Hin by (apply elem_of_started; eauto).
      rewrite Hs in Hin. by apply elem_of_nil in Hin.
    + simpl in E. simplify_eq. by eapply IH.
  - rewrite puts_spec, started_puts, app_nil_r by done. apply IH.
Qed.

(** ** [process_url] from its first line to its last *)

Lemma raises_other url method : method ≠ GET → raises url method = false.
Proof.
  intros Hm. destruct (raises url method) eqn:E; [|done].
  by apply raises_only_GET in E.
Qed.

Lemma turns_without_GET url todo : GET ∉ todo → turns url todo = todo.
Proof.
  induction todo as [|m todo IH]; [done|]. intros Hin. simpl.
  rewrite raises_other by (intros ->; apply Hin; by left).
  rewrite IH; [done|]. intros ?. apply Hin. by right.
Qed.

Lemma turns_methods url : turns url methods = attempted url.
Proof.
  unfold attempted, methods. simpl. destruct (raises url GET); [done|].
  by rewrite !raises_other.
Qed.

Lemma probe_all_spec todo : ∀ self url depth,
  probe_all self url depth todo
  = (if forallb (λ method, negb (raises url method)) todo then Normal else Raised)
      (mkSpider (start_url self) (max_depth self) (concurrency self)
         (visited self)
         (results self ++ flat_map (recorded url) (turns url todo))
         (Queue.mk
            (Queue.items (queue self)
             ++ flat_map (λ method, linked (elements (found url method)) depth)
                         (turns url todo))
            (Queue.unfinished_tasks (queue self)
             + Z.of_nat (length (flat_map (λ method, elements (found url method))
                                          (turns url todo)))))).
Proof.
  induction todo as [|method todo IH]; intros self url depth; simpl.
  - destruct self as [? ? ? ? ? [? ?]]. simpl. by rewrite !app_nil_r, Z.add_0_r.
  - rewrite probe_spec by done. destruct (raises url method) eqn:Hr; simpl.
    + by rewrite !app_nil_r.
    + rewrite IH. simpl. rewrite !length_app, <- !app_assoc.
      do 3 f_equal. lia.
Qed.

(** X2. What [process_url] leaves for an item that passes the guard: the
    address is visited, the log has grown by the records of the turns
    that were run and obtained a status, in the order of the methods, and
    every link of the page is queued one level deeper. When the extraction
    of the links raises, the exception leaves the function after the
    record of the GET and nothing is queued. *)
Theorem process_url_effect self url depth :
  skips self url depth = false →
  process_url self url depth
  = (if raises url GET then Raised else Normal)
      (mkSpider (start_url self) (max_depth self) (concurrency self)
         ({[ url ]} ∪ visited self)
         (results self ++ flat_map (recorded url) (attempted url))
         (Queue.mk
            (Queue.items (queue self) ++ linked (elements (links_of url)) depth)
            (Queue.unfinished_tasks (queue self)
             + Z.of_nat (size (links_of url))))).
Proof.
  intros Hskip. unfold process_url. rewrite Hskip, probe_all_spec.
  rewrite turns_methods. unfold attempted, links_of.
  destruct (raises url GET) eqn:Hr.
  - pose proof (raises_found _ _ Hr) as Hnone. simpl.
    rewrite Hr, Hnone, elements_empty, size_empty. simpl. by rewrite !app_nil_r.
  - unfold methods. simpl. rewrite Hr, !raises_other by done. simpl.
    rewrite (found_only_GET url POST), (found_only_GET url PUT),
      (found_only_GET url DELETE), (found_only_GET url HEAD),
      (found_only_GET url OPTIONS), elements_empty by done.
    simpl. by rewrite !app_nil_r.
Qed.

(** ** A worker's segments make up [process_url] *)

Lemma exec_turns i url depth self' todo : ∀ r trace,
  tasks r !! i = Some (Fetching url depth todo) →
  todo ≠ [] →
  finish (after_turn (probe_all (spider r) url depth todo)) = Some self' →
  ∃ trace',
    exec r trace (replicate (length (turns url todo)) i)
    = Some (trace', mkRun self' (<[i := Waiting]> (tasks r))).
Proof.
  induction todo as [|method rest IH]; intros r trace Hi Hne Hfin; [done|].
  simpl in Hfin. simpl. unfold exec_step. rewrite Hi. simpl.
  rewrite probe_spec in * by done.
  destruct (raises url method) eqn:Hr; simpl in Hfin |- *.
  - rewrite Hfin. simpl. by eexists.
  - destruct (decide (rest = [])) as [->|Hmore]; simpl in Hfin |- *.
    + rewrite Hfin. simpl. by eexists.
    + remember (replicate (length (turns url rest)) i) as schedule eqn:Hs.
      destruct rest as [|method' rest']; [done|]. simpl. subst schedule.
      match goal with
      | |- context [exec ?r1 ?t1 _] => destruct (IH r1 t1) as [trace' Hexec]
      end.
      * simpl. apply list_lookup_insert_eq. by eapply lookup_lt_Some.
      * done.
      * done.
      * cbn [tasks] in Hexec. rewrite list_insert_insert_eq in Hexec.
        rewrite Hexec. by eexists.
Qed.

(** X3. The segments of one worker, taken without interruption from the
    pop of an item to the call of [task_done], leave the spider that
    [process_url] followed by [task_done] leaves, and the worker back in
    [queue.get()]: one segment for an item that fails the guard, and one
    more per turn of the loop that is run for an item that passes it. *)
Theorem worker_runs_process_url r trace i url depth q self' :
  tasks r !! i = Some Waiting →
  Queue.get (queue (spider r)) = Some ((url, depth), q) →
  finish (after_turn (process_url (set_queue (spider r) q) url depth))
    = Some self' →
  ∃ trace',
    exec r trace
      (replicate (S (if skips (spider r) url depth then 0
                     else length (attempted url))) i)
    = Some (trace', mkRun self' (tasks r)).
Proof.
  intros Hi Hget Hfin. unfold process_url in Hfin.
  assert (skips (set_queue (spider r) q) url depth = skips (spider r) url depth)
    as Hsame by done.
  rewrite Hsame in Hfin. simpl. unfold exec_step at 1. rewrite Hi, Hget.
  destruct (skips (spider r) url depth) eqn:Hskip; simpl in *.
  - rewrite Hfin. simpl. by eexists.
  - rewrite <- turns_methods.
    match goal with
    | |- context [exec ?r1 ?t1 _] =>
        destruct (exec_turns i url depth self' methods r1 t1) as [trace' Hexec]
    end.
    + simpl. apply list_lookup_insert_eq. by eapply lookup_lt_Some.
    + done.
    + done.
    + cbn [tasks] in Hexec.
      rewrite list_insert_insert_eq, (list_insert_id (tasks r) i Waiting) in Hexec
        by done.
      by exists trace'.
Qed.

Lemma execution_visited_within start depth_limit workers trace r :
  execution start depth_limit workers trace r →
  visited (spider r) ⊆ within start (Z.to_nat depth_limit).
Proof.
  intros [] %execution_traced url [depth Hs]%traced_visited0%elem_of_started.
  destruct (traced_start_put0 _ _ Hs) as [Hput Hd].
  destruct (traced_walk0 _ _ Hput) as (n & -> & Hw).
  eapply within_le; [|by apply walk_within]. lia.
Qed.

(** X6. No (address, method) pair is logged twice, whatever the number of
    workers: every turn is run once. So the log holds at most six entries
    per visited address, and the visited addresses are among those within
    [max_depth] links of the seed, which bounds the log before the run. *)
Theorem no_pair_logged_twice start depth_limit workers trace r :
  execution start depth_limit workers trace r →
  NoDup (pairs (results (spider r)))
  ∧ (length (results (spider r)) ≤ 6 * size (visited (spider r)))%nat
  ∧ (length (results (spider r))
     ≤ 6 * size (within start (Z.to_nat depth_limit)))%nat.
Proof.
  intros Hex. pose proof (execution_pairs_NoDup _ _ _ _ _ Hex) as Hnd.
  destruct (execution_logged _ _ _ _ _ Hex) as [_ _ Hpairs].
  assert (length (results (spider r)) ≤ 6 * size (visited (spider r)))%nat as Hlen.
  { assert (pairs (results (spider r))
            ⊆+ list_prod (elements (visited (spider r))) methods) as Hsub.
    { apply NoDup_submseteq; [done|]. intros [url method] Hin.
      apply Hpairs in Hin as (Hv & _). apply list_elem_of_In, in_prod.
      - by apply list_elem_of_In, elem_of_elements.
      - apply list_elem_of_In, all_methods. }
    apply submseteq_length in Hsub.
    unfold pairs in Hsub. rewrite length_fmap, length_prod in Hsub.
    unfold size, set_size. simpl in *. lia. }
  split; [done|]. split; [done|].
  pose proof (subseteq_size _ _ (execution_visited_within _ _ _ _ _ Hex)). lia.
Qed.

(** X1. [task_done] is never called once too often (it would raise
    [ValueError]): the counter of the queue is never negative, and
    whenever a worker has an item to pop or a fetch to come back from, the
    segment that follows, [task_done] included, can be run. *)
Theorem task_done_never_raises start depth_limit workers trace r :
  execution start depth_limit workers trace r →
  0 ≤ Queue.unfinished_tasks (queue (spider r))
  ∧ ∀ i,
      (tasks r !! i = Some Waiting ∧ Queue.items (queue (spider r)) ≠ []
       ∨ ∃ url depth method rest,
           tasks r !! i = Some (Fetching url depth (method :: rest))) →
      ∃ events r', exec_step r i = Some (events, r') ∧ step r events r'.
Proof.
  intros Hex. split.
  - pose proof (execution_counted _ _ _ _ _ Hex) as Hc. unfold counted in Hc.
    pose proof (busy_nonneg (tasks r)). lia.
  - intros i Hi.
    destruct (worker_has_step _ _ _ _ _ i Hex Hi) as [[events r'] Hstep].
    exists events, r'. split; [done|]. by apply (exec_step_sound _ i).
Qed.

(** X12. With at least one worker every run comes to the point where
    [join] returns: from any state reached, some sequence of steps, no
    longer than the potential of the state, leads to quiescence. *)
Theorem run_reaches_quiescence start depth_limit workers trace r :
  0 < workers →
  execution start depth_limit workers trace r →
  ∃ n r',
    steps r n r' ∧ joined r' = true ∧ (n ≤ potential start depth_limit r)%nat.
Proof.
  intros Hw.
  assert (∀ k trace r,
            execution start depth_limit workers trace r →
            (potential start depth_limit r ≤ k)%nat →
            ∃ n r', steps r n r' ∧ joined r' = true
                    ∧ (n ≤ potential start depth_limit r)%nat) as Hind.
  { clear trace r. induction k as [|k IH]; intros trace r Hex Hk.
    - destruct (joined r) eqn:Hj.
      + exists 0%nat, r. split; [constructor|]. split; [done|lia].
      + destruct (run_goes_on _ _ _ _ _ Hw Hex Hj) as (events & r1 & Hstep).
        pose proof (step_potential _ _ _ _ _ _
                      (execution_traced _ _ _ _ _ Hex)
                      (execution_logged _ _ _ _ _ Hex) Hstep). lia.
    - destruct (joined r) eqn:Hj.
      + exists 0%nat, r. split; [constructor|]. split; [done|lia].
      + destruct (run_goes_on _ _ _ _ _ Hw Hex Hj) as (events & r1 & Hstep).
        pose proof (step_potential _ _ _ _ _ _
                      (execution_traced _ _ _ _ _ Hex)
                      (execution_logged _ _ _ _ _ Hex) Hstep) as Hless.
        destruct (IH _ r1 (execution_step _ _ _ _ _ _ _ Hex Hstep))
          as (n & r' & Hsteps & Hjoin & Hn); [lia|].
        exists (S n), r'. split; [by econstructor|]. split; [done|lia]. }
  intros Hex. by eapply Hind.
Qed.

(** ** When [extract_links] raises, and when it finds nothing *)

Lemma extract_link_None base_url acc tag :
  extract_link base_url acc tag = None ↔ refused base_url tag.
Proof.
  unfold extract_link, refused, is_valid.
  destruct (tag_get (tag_attrs tag) (link_attr tag)) as [link|] eqn:Hget.
  - destruct (truthy link) eqn:Htruthy.
    + destruct (urljoin base_url link) as [full|] eqn:Hjoin; simpl.
      * destruct (urldefrag full) as [[parsed frag]|] eqn:Hdefrag; simpl.
        -- destruct (urlparse parsed) as [p|] eqn:Hparse; simpl.
           ++ split; [done|].
              intros (raw & ? & _ & [?|(full' & ? & [?|(pa & fr & ? & ?)])]);
                simplify_eq.
           ++ split; [|done]. intros _. exists link.
              do 2 (split; [done|]). right. exists full. split; [done|].
              right. by exists parsed, frag.
        -- split; [|done]. intros _. exists link.
           do 2 (split; [done|]). right. exists full. split; [done|]. by left.
      * split; [|done]. intros _. exists link. do 2 (split; [done|]). by left.
    + split; [done|]. intros (raw & ? & ? & _). congruence.
  - split; [done|]. intros (raw & ? & _). congruence.
Qed.

Lemma extract_from_None base_url tags : ∀ acc,
  extract_from base_url acc tags = None
  ↔ ∃ tag, tag ∈ tags ∧ refused base_url tag.
Proof.
  induction tags as [|tag tags IH]; intros acc; simpl.
  - split; [done|]. by intros (tag & ?%elem_of_nil & _).
  - destruct (extract_link base_url acc tag) as [acc'|] eqn:Hlink; simpl.
    + rewrite IH. split.
      * intros (t & ? & ?). exists t. split; [by right|done].
      * intros (t & [->|?]%elem_of_cons & Hr); [|by exists t].
        apply (extract_link_None _ acc) in Hr. congruence.
    + split; [|done]. intros _. exists tag. split; [by left|].
      by apply (extract_link_None _ acc).
Qed.

(** X10. [extract_links] raises exactly when the parser raises on the
    document, or when the document has an [a], [link], [script] or [img]
    element whose non-empty reference makes [urljoin], [urldefrag] or the
    [urlparse] of [is_valid] raise; one such reference loses the links of
    the whole page. *)
Theorem extract_links_raises html base_url :
  extract_links html base_url = None
  ↔ BeautifulSoup html = None
    ∨ ∃ soup tag,
        BeautifulSoup html = Some soup
        ∧ tag ∈ find_all ["a"; "link"; "script"; "img"] soup
        ∧ refused base_url tag.
Proof.
  unfold extract_links. destruct (BeautifulSoup html) as [soup|]; simpl.
  - rewrite extract_from_None. split.
    + intros (tag & ? & ?). right. by exists soup, tag.
    + intros [?|(soup' & tag & ? & ? & ?)]; [done|]. simplify_eq. by exists tag.
  - split; [by left|done].
Qed.

(** X11. A document in which no [a], [link], [script] or [img] element
    carries a non-empty reference (an empty document, elements without
    the attribute, empty attributes) yields the empty set, and none of
    the library calls on addresses is made. *)
Theorem extract_links_without_references html base_url soup :
  BeautifulSoup html = Some soup →
  (∀ tag raw,
     tag ∈ find_all ["a"; "link"; "script"; "img"] soup →
     tag_get (tag_attrs tag) (link_attr tag) = Some raw → truthy raw = false) →
  extract_links html base_url = Some ∅.
Proof.
  intros Hsoup Hnone. unfold extract_links. rewrite Hsoup. simpl.
  induction (find_all ["a"; "link"; "script"; "img"] soup) as [|tag tags IH];
    [done|].
  simpl. unfold extract_link at 1.
  destruct (tag_get (tag_attrs tag) (link_attr tag)) as [raw|] eqn:Hget.
  - rewrite (Hnone tag raw) by (done || by left). simpl.
    apply IH. intros t raw' ?. apply Hnone. by right.
  - simpl. apply IH. intros t raw' ?. apply Hnone. by right.
Qed.

(** ** A single worker crawls breadth first *)

Lemma start_depth_unique trace url d1 d2 :
  NoDup (started trace) →
  Start url d1 ∈ trace → Start url d2 ∈ trace → d1 = d2.
Proof.
  induction trace as [|e trace IH]; [by intros _ ?%elem_of_nil|].
  intros Hnd H1 H2.
  assert (∀ d, Start url d ∈ trace → url ∈ started trace) as Hin.
  { intros d ?. apply elem_of_started. by exists d. }
  destruct e as [u d|u d|u d]; simpl in Hnd.
  - apply elem_of_cons in H1 as [?|H1]; [done|].
    apply elem_of_cons in H2 as [?|H2]; [done|]. by apply IH.
  - apply elem_of_cons in H1 as [?|H1]; [done|].
    apply elem_of_cons in H2 as [?|H2]; [done|]. by apply IH.
  - apply NoDup_cons in Hnd as [Hnew Hnd].
    apply elem_of_cons in H1 as [[= -> ->]|H1];
      apply elem_of_cons in H2 as [[= <-]|H2]; try done.
    + by destruct Hnew; eapply Hin.
    + simplify_eq. by destruct Hnew; eapply Hin.
    + by apply IH.
Qed.

Lemma suffix_with_GET todo :
  todo `suffix_of` methods → GET ∈ todo → todo = methods.
Proof.
  intros [[|x k] Hk] Hin; [done|].
  unfold methods in Hk. simpl in Hk. injection Hk as <- Hk.
  assert (GET ∉ [POST; PUT; DELETE; HEAD; OPTIONS]) as Hno
    by (by apply (bool_decide_unpack _)).
  destruct Hno. rewrite Hk. apply elem_of_app. by right.
Qed.

Lemma layered_tail c item items :
  layered c (item :: items) →
  layered c items
  ∧ layered (item.2) items
  ∧ Forall (λ other, item.2 ≤ other.2) items.
Proof.
  intros (lo & hi & Hsplit & Hlo & Hhi). destruct lo as [|x lo]; simpl in Hsplit.
  - subst hi. apply Forall_cons in Hhi as [Hd Hhi]. split; [|split].
    + by exists [], items.
    + exists items, []. rewrite app_nil_r, Hd. by repeat split.
    + eapply Forall_impl; [done|]. simpl. intros other ->. lia.
  - simplify_eq. apply Forall_cons in Hlo as [Hd Hlo]. split; [|split].
    + by exists lo, hi.
    + rewrite Hd. by exists lo, hi.
    + apply Forall_app. split.
      * eapply Forall_impl; [apply Hlo|]. simpl. intros other ->. lia.
      * eapply Forall_impl; [apply Hhi|]. simpl. intros other ->. lia.
Qed.

Lemma layered_linked c items order :
  layered c items → layered c (items ++ linked order c).
Proof.
  intros (lo & hi & -> & Hlo & Hhi). exists lo, (hi ++ linked order c).
  rewrite app_assoc. split; [done|]. split; [done|].
  apply Forall_app. split; [done|].
  unfold linked. apply Forall_fmap, Forall_true. done.
Qed.

(** With the worker idle and nothing queued above level [f], everything
    less than [f] links from the seed, and within the bound, has been
    processed. *)
Lemma closed_below start depth_limit trace r f :
  traced start depth_limit trace r →
  breadth_first start trace r →
  Forall (λ t, t = Waiting) (tasks r) →
  Forall (λ item, f ≤ item.2) (Queue.items (queue (spider r))) →
  ∀ n url,
    walk start n url → Z.of_nat n < f → Z.of_nat n ≤ depth_limit →
    ∃ depth, Start url depth ∈ trace ∧ depth ≤ Z.of_nat n.
Proof.
  intros [] [Hseed _ Hlinks Hshort] Hidle Hitems.
  rewrite Forall_lookup in Hidle. rewrite Forall_forall in Hitems.
  assert (∀ url depth n,
            Put url depth ∈ trace → walk start n url →
            depth < f → depth ≤ depth_limit →
            ∃ depth', Start url depth' ∈ trace ∧ depth' ≤ Z.of_nat n) as Hput.
  { intros url depth n Hput Hw Hf Hd.
    destruct (traced_covered0 _ _ Hput) as [Hin|[Hin|?]]; [| |lia].
    - apply Hitems in Hin. simpl in Hin. lia.
    - apply elem_of_started in Hin as [depth' Hs]. exists depth'.
      split; [done|]. by eapply Hshort. }
  induction 1 as [|n u v Hw IH Hv]; intros Hf Hd.
  - eapply Hput; [done|constructor|lia|lia].
  - destruct IH as (depth & Hs & Hle); [lia|lia|].
    destruct (Hlinks _ _ Hs) as [(i & d & todo & Hi & _)|Hall].
    + by specialize (Hidle _ _ Hi).
    + eapply (Hput v (depth + 1)); [by apply Hall|by econstructor|lia|lia].
Qed.

Lemma single_lookup (ts : list Task) j t :
  length ts = 1%nat → ts !! j = Some t → ts = [t].
Proof.
  destruct ts as [|t0 [|? ?]]; try done. intros _ Hj.
  destruct j; simpl in Hj; [by simplify_eq|done].
Qed.

Lemma start_breadth_first start depth_limit workers :
  breadth_first start [Put start 0] (start_run (init start depth_limit workers)).
Proof.
  split; simpl.
  - by left.
  - exists 0. split.
    + exists [(start, 0)], []. by repeat constructor.
    + intros i url depth todo [[=] _]%lookup_replicate.
  - intros url depth [=]%list_elem_of_singleton.
  - intros url depth n [=]%list_elem_of_singleton.
Qed.

Lemma step_breadth_first start depth_limit trace r events r' :
  length (tasks r) = 1%nat →
  traced start depth_limit trace r →
  logged r →
  breadth_first start trace r →
  step r events r' →
  breadth_first start (trace ++ events) r'.
Proof.
  intros Hone Htraced Hlogged Hbf Hstep.
  pose proof Htraced as [_ Hl Hitems Htasks _ Hvis Honce _ _ _ _ _].
  pose proof Hlogged as [Hheld Huniq _].
  pose proof Hbf as [Hseed (c & Hlay & Hc) Hlinks Hshort].
  assert (∀ j t, tasks r !! j = Some t → tasks r = [t]) as Hsingle.
  { intros j t Hj. by eapply single_lookup. }
  destruct Hstep as [r i url depth q self' Hi Hget Hskip Hfin
                    |r i url depth q Hi Hget Hskip
                    |r i url depth method rest order self' task' Hi Horder Hnext].
  - (* a popped item fails the guard *)
    apply get_Some in Hget as [Hq _]. apply finish_Some in Hfin as [_ ->].
    rewrite Hq in Hlay. apply layered_tail in Hlay as (Hlay & _ & _).
    split; simpl.
    + apply elem_of_app. by left.
    + exists c. split; [done|]. intros j u d todo Hj.
      rewrite (Hsingle _ _ Hi) in Hj. by destruct j.
    + intros u d [Hs|[=]%list_elem_of_singleton]%elem_of_app.
      destruct (Hlinks _ _ Hs) as [?|Hall]; [by left|right].
      intros v Hv. apply elem_of_app. left. by apply Hall.
    + intros u d n [Hs|[=]%list_elem_of_singleton]%elem_of_app. by eapply Hshort.
  - (* a popped item passes the guard *)
    apply get_Some in Hget as [Hq _].
    apply skips_false in Hskip as [Hnew Hdepth]. rewrite Hl in Hdepth.
    pose proof Hlay as Hlay0. rewrite Hq in Hlay.
    apply layered_tail in Hlay as (_ & Hlay & Habove). simpl in Hlay, Habove.
    split; simpl.
    + apply elem_of_app. by left.
    + exists depth. split; [done|]. intros j u d todo Hj.
      assert (i = 0%nat) as ->.
      { pose proof Hi as Hi'. rewrite (Hsingle _ _ Hi) in Hi'. by destruct i. }
      rewrite (Hsingle _ _ Hi) in Hj.
      destruct j; simpl in Hj; [by simplify_eq|done].
    + intros u d [Hs|[= -> ->]%list_elem_of_singleton]%elem_of_app.
      * destruct (Hlinks _ _ Hs) as [(j & d' & todo & Hj & _)|Hall].
        -- rewrite (Hsingle _ _ Hi) in Hj. by destruct j.
        -- right. intros v Hv. apply elem_of_app. left. by apply Hall.
      * left. exists i, depth, methods. split; [|apply all_methods].
        apply list_lookup_insert_eq. by eapply lookup_lt_Some.
    + intros u d n [Hs|[= -> ->]%list_elem_of_singleton]%elem_of_app Hw;
        [by eapply Hshort|].
      destruct (decide (depth ≤ Z.of_nat n)) as [|Hless]; [done|]. exfalso.
      destruct (closed_below _ _ _ _ depth Htraced Hbf) with (n := n) (url := url)
        as (d' & Hs & _); try done; try lia.
      * rewrite (Hsingle _ _ Hi). by repeat constructor.
      * rewrite Hq. apply Forall_cons. split; [simpl; lia|done].
      * apply Hnew, Hvis, elem_of_started. by exists d'.
  - (* a fetch completes *)
    rewrite puts_spec by done.
    pose proof (Hc _ _ _ _ Hi) as Hdc. subst c.
    destruct (Hheld _ _ _ _ Hi) as (_ & Hsuf & _).
    assert (Queue.items (queue self')
            = Queue.items (queue (spider r)) ++ linked order depth) as Hq.
    { apply next_task_inv in Hnext as [(_ & Hfin & _)|(_ & -> & _)];
        rewrite probe_spec in * by done.
      - apply finish_Some in Hfin as [_ ->]. by destruct (raises url method).
      - by destruct (raises url method). }
    assert ((task' = Waiting ∧ (rest = [] ∨ raises url method = true))
            ∨ (task' = Fetching url depth rest ∧ raises url method = false))
      as Htask.
    { apply next_task_inv in Hnext as [(-> & _ & Hwhy)|(-> & _ & _ & self & Hn)];
        rewrite probe_spec in * by done.
      - left. split; [done|]. destruct Hwhy as [?|[self Hr]]; [by left|right].
        by destruct (raises url method).
      - right. split; [done|]. by destruct (raises url method). }
    clear Hnext.
    assert (i = 0%nat ∧ tasks r = [Fetching url depth (method :: rest)]) as [-> Hts].
    { split; [|by eapply Hsingle]. rewrite (Hsingle _ _ Hi) in Hi. by destruct i. }
    split; simpl.
    + apply elem_of_app. by left.
    + exists depth. split; [rewrite Hq; by apply layered_linked|].
      intros j u d todo Hj. rewrite Hts in Hj.
      destruct j; simpl in Hj; [|done].
      destruct Htask as [[-> _]|[-> _]]; by simplify_eq.
    + intros u d [Hs|(link & [=] & _)%elem_of_puts]%elem_of_app.
      destruct (Hlinks _ _ Hs) as [(j & d' & todo & Hj & Hget)|Hall].
      * rewrite Hts in Hj. destruct j; simpl in Hj; [|done].
        injection Hj as <- <- <-.
        assert (method :: rest = methods) as Hall by (by apply suffix_with_GET).
        unfold methods in Hall. injection Hall as -> ->.
        assert (d = depth) as ->.
        { eapply start_depth_unique; [done|done|]. by eapply Htasks. }
        right. intros v Hv. apply elem_of_app. right. apply elem_of_puts.
        exists v. split; [done|]. rewrite Horder. by apply elem_of_elements.
      * right. intros v Hv. apply elem_of_app. left. by apply Hall.
    + intros u d n [Hs|(link & [=] & _)%elem_of_puts]%elem_of_app. by eapply Hshort.
Qed.

Lemma execution_breadth_first start depth_limit trace r :
  execution start depth_limit 1 trace r → breadth_first start trace r.
Proof.
  induction 1 as [|trace r events r' Hex IH Hstep]; [apply start_breadth_first|].
  eapply step_breadth_first; [|by eapply execution_traced
                              |by eapply execution_logged|done|done].
  by destruct (execution_staffed _ _ _ _ _ Hex) as [-> _].
Qed.

Lemma single_worker_complete start depth_limit trace r n url :
  execution start depth_limit 1 trace r →
  joined r = true →
  walk start n url → Z.of_nat n ≤ depth_limit →
  url ∈ visited (spider r).
Proof.
  intros Hex Hj Hw Hn.
  pose proof (execution_breadth_first _ _ _ _ Hex) as Hbf.
  pose proof (execution_traced _ _ _ _ _ Hex) as Htraced.
  apply joined_counted in Hj as [Hq Hidle]; [|by eapply execution_counted].
  destruct (closed_below _ _ _ _ (depth_limit + 1) Htraced Hbf Hidle)
    with (n := n) (url := url) as (depth & Hs & _); try done; try lia.
  - rewrite Hq. constructor.
  - destruct Htraced. apply traced_visited0, elem_of_started. by exists depth.
Qed.

(** X13. With a single worker the crawl is breadth first. Every address
    is processed at its distance from the seed (no walk from the seed to
    it is shorter than the depth of the item that passed the guard), and
    once [join] may return the visited set is exactly the set of
    addresses within [max_depth] links of the seed; the log then holds,
    for each of them, the turns that were run and obtained a status. *)
Theorem single_worker_is_breadth_first start depth_limit trace r :
  execution start depth_limit 1 trace r →
  (∀ url depth n,
     Start url depth ∈ trace → walk start n url → depth ≤ Z.of_nat n)
  ∧ (joined r = true →
     (∀ url,
        url ∈ visited (spider r)
        ↔ ∃ n, Z.of_nat n ≤ depth_limit ∧ walk start n url)
     ∧ (∀ url method,
          (url, method) ∈ pairs (results (spider r))
          ↔ (∃ n, Z.of_nat n ≤ depth_limit ∧ walk start n url)
            ∧ is_Some (fetch url method) ∧ method ∈ attempted url)).
Proof.
  intros Hex.
  pose proof (execution_breadth_first _ _ _ _ Hex) as Hbf.
  pose proof (execution_traced _ _ _ _ _ Hex) as Htraced.
  pose proof (execution_counted _ _ _ _ _ Hex) as Hc.
  split; [by destruct Hbf|]. intros Hj.
  assert (∀ url,
            url ∈ visited (spider r)
            ↔ ∃ n, Z.of_nat n ≤ depth_limit ∧ walk start n url) as Hvisited.
  { intros url. split.
    - destruct Htraced. intros [depth Hs]%traced_visited0%elem_of_started.
      destruct (traced_start_put0 _ _ Hs) as [Hput Hd].
      destruct (traced_walk0 _ _ Hput) as (n & -> & Hw). by exists n.
    - intros (n & Hn & Hw). by eapply single_worker_complete. }
  split; [done|]. intros url method.
  pose proof (joined_not_pending r url method Hc Hj).
  destruct (execution_logged _ _ _ _ _ Hex) as [_ _ Hpairs].
  rewrite Hpairs, Hvisited. tauto.
Qed.

(** X14. No run visits or logs more than the run with a single worker:
    whatever the number of workers and the interleaving, the visited set
    and the pairs of the log at any moment are among those the
    single-worker run ends with. *)
Theorem single_worker_log_is_largest
    start depth_limit workers trace r trace1 r1 :
  execution start depth_limit workers trace r →
  execution start depth_limit 1 trace1 r1 →
  joined r1 = true →
  visited (spider r) ⊆ visited (spider r1)
  ∧ ∀ url method,
      (url, method) ∈ pairs (results (spider r)) →
      (url, method) ∈ pairs (results (spider r1)).
Proof.
  intros Hex Hex1 Hj.
  assert (visited (spider r) ⊆ visited (spider r1)) as Hsub.
  { destruct (execution_traced _ _ _ _ _ Hex).
    intros url [depth Hs]%traced_visited0%elem_of_started.
    destruct (traced_start_put0 _ _ Hs) as [Hput Hd].
    destruct (traced_walk0 _ _ Hput) as (n & -> & Hw).
    by eapply single_worker_complete. }
  split; [done|]. intros url method Hin.
  destruct (execution_logged _ _ _ _ _ Hex) as [_ _ Hpairs].
  destruct (execution_logged _ _ _ _ _ Hex1) as [_ _ Hpairs1].
  apply Hpairs in Hin as (Hv & Hsome & Hatt & _).
  apply Hpairs1. split; [by apply Hsub|]. split; [done|]. split; [done|].
  eapply joined_not_pending; [by eapply execution_counted|done].
Qed.

(** ** Only accepted addresses are requested *)

Lemma found_is_valid url method v :
  v ∈ found url method → is_valid v = Some true.
Proof.
  unfold found, extraction.
  destruct (fetch url method) as [[[st content] hdrs]|];
    [|by intros ?%not_elem_of_empty].
  destruct (follows method content hdrs); [|by intros ?%not_elem_of_empty].
  destruct (extract_links content url) as [links|] eqn:Hlinks;
    [|by intros ?%not_elem_of_empty].
  unfold extract_links in Hlinks.
  destruct (BeautifulSoup content) as [soup|]; [|done]. simpl in Hlinks.
  intros Hv. apply (extract_from_spec _ _ _ _ Hlinks) in Hv
    as [?%not_elem_of_empty|(tag & _ & raw & full & frag & p & _ & _ & _ & _ & Hp & Hs)];
    [done|].
  unfold is_valid. rewrite Hp. simpl. by rewrite bool_decide_eq_true_2.
Qed.

(** X15. Apart from the seed, every address that is queued, and so every
    address that is requested or logged, has passed [is_valid]: its
    scheme is [http] or [https]. *)
Theorem only_valid_links_are_queued start depth_limit workers trace r :
  execution start depth_limit workers trace r →
  (∀ url depth,
     Put url depth ∈ trace → url = start ∨ is_valid url = Some true)
  ∧ (∀ url depth,
       Start url depth ∈ trace → url = start ∨ is_valid url = Some true)
  ∧ (∀ o, o ∈ results (spider r) →
       o_url o = start ∨ is_valid (o_url o) = Some true).
Proof.
  intros [] %execution_traced.
  assert (∀ url depth,
            Put url depth ∈ trace → url = start ∨ is_valid url = Some true)
    as Hput.
  { intros url depth Hp.
    destruct (traced_parent0 _ _ Hp) as [[? _]|(parent & _ & Hv)]; [by left|].
    right. by eapply found_is_valid. }
  split; [done|]. split.
  - intros url depth [Hp _]%traced_start_put0. by eapply Hput.
  - intros o [depth [Hp _]%traced_start_put0]%traced_results0%elem_of_started.
    by eapply Hput.
Qed.

End Crawler.


(** * Concrete runs

    The crawler on the small web of [Web]: schedules are run with
    [run_schedule], and [run_schedule_sound] makes them executions. *)

Abbreviation web_execution site :=
  (execution Web.urljoin Web.urldefrag Web.urlparse Web.BeautifulSoup
             (Web.request site)).

Abbreviation web_run site :=
  (run_schedule Web.urljoin Web.urldefrag Web.urlparse Web.BeautifulSoup
                (Web.request site)).

Abbreviation web_fetch site := (fetch (Web.request site)).

Abbreviation web_links site :=
  (links_of Web.urljoin Web.urldefrag Web.urlparse Web.BeautifulSoup
            (Web.request site)).

Abbreviation web_walk site :=
  (walk Web.urljoin Web.urldefrag Web.urlparse Web.BeautifulSoup
        (Web.request site)).

Lemma web_run_execution site start depth_limit workers schedule trace r :
  web_run site start depth_limit workers schedule = Some (trace, r) →
  web_execution site start depth_limit workers trace r.
Proof. apply run_schedule_sound. Qed.

(** Runs a schedule and names its trace and final state. *)
Tactic Notation "run_web" constr(s) :=
  eexists _, _; split;
  [ apply web_run_execution with (schedule := s); vm_compute; reflexivity | ].

(** Closes a decidable goal on concrete data. *)
Ltac decided := apply (bool_decide_unpack _); vm_compute; exact I.

(** One worker on [kite], depth bound 2, stopped after the seed and its
    two pages: both have put the page they link to, which is not visited. *)
Lemma queue_holds_address_twice :
  ∃ trace r,
    web_execution Web.kite "http://s/" 2 1 trace r
    ∧ trace = [Put "http://s/" 0; Start "http://s/" 0;
               Put "http://s/c" 1; Put "http://s/a" 1;
               Start "http://s/c" 1; Put "http://s/b" 2;
               Start "http://s/a" 1; Put "http://s/b" 2]
    ∧ put_count "http://s/b" trace = 2%nat
    ∧ Queue.items (queue (spider r)) = [("http://s/b", 2); ("http://s/b", 2)]
    ∧ "http://s/b" ∉ visited (spider r).
Proof.
  run_web (replicate 21 0%nat).
  split; [reflexivity|]. split; [reflexivity|]. split; [reflexivity|]. decided.
Qed.

Lemma visited_when_processing_starts_witness :
  ∃ trace r,
    web_execution Web.kite "http://s/" 2 1 trace r
    ∧ started trace = ["http://s/"; "http://s/c"; "http://s/a"]
    ∧ (∀ url, url ∈ visited (spider r) ↔ url ∈ started trace)
    ∧ NoDup (started trace).
Proof.
  run_web (replicate 21 0%nat). split; [reflexivity|].
  apply (visited_when_processing_starts
           Web.urljoin Web.urldefrag Web.urlparse Web.BeautifulSoup
           (Web.request Web.kite) "http://s/" 2 1).
  apply web_run_execution with (schedule := replicate 21 0%nat).
  vm_compute; reflexivity.
Defined.

(** Every request fails (no page is served): the six probes of the seed
    are attempted and the run ends with an empty log. *)
Lemma failed_probes_not_logged :
  Forall (λ method, web_fetch [] "http://down.example/" method = None) methods
  ∧ ∃ trace r,
      web_execution [] "http://down.example/" 2 1 trace r
      ∧ trace = [Put "http://down.example/" 0; Start "http://down.example/" 0]
      ∧ joined r = true
      ∧ results (spider r) = [].
Proof.
  split; [by repeat constructor|].
  run_web (replicate 7 0%nat). by repeat split.
Qed.

(** Depth bound 0 on [kite]: the links of the seed are put at depth 1. *)
Lemma link_put_beyond_max_depth :
  ∃ trace r,
    web_execution Web.kite "http://s/" 0 1 trace r
    ∧ trace = [Put "http://s/" 0; Start "http://s/" 0;
               Put "http://s/c" 1; Put "http://s/a" 1]
    ∧ Queue.items (queue (spider r)) = [("http://s/c", 1); ("http://s/a", 1)]
    ∧ max_depth (spider r) = 0.
Proof.
  run_web (replicate 2 0%nat). by repeat split.
Qed.

Lemma depth_checked_when_popped_witness :
  ∃ trace r,
    web_execution Web.kite "http://s/" 0 1 trace r
    ∧ trace = [Put "http://s/" 0; Start "http://s/" 0;
               Put "http://s/c" 1; Put "http://s/a" 1;
               Skip "http://s/c" 1; Skip "http://s/a" 1]
    ∧ (∀ url depth,
         Put url depth ∈ trace →
         (url = "http://s/" ∧ depth = 0)
         ∨ (1 ≤ depth ≤ 0 + 1
            ∧ ∃ parent, Start parent (depth - 1) ∈ trace
                        ∧ url ∈ web_links Web.kite parent))
    ∧ (∀ url depth, Start url depth ∈ trace → 0 ≤ depth ≤ 0)
    ∧ (0 = 0 → ∀ o, o ∈ results (spider r) → o_url o = "http://s/").
Proof.
  run_web (replicate 9 0%nat). split; [reflexivity|].
  apply (depth_checked_when_popped
           Web.urljoin Web.urldefrag Web.urlparse Web.BeautifulSoup
           (Web.request Web.kite) "http://s/" 0 1).
  apply web_run_execution with (schedule := replicate 9 0%nat).
  vm_compute; reflexivity.
Defined.

Lemma no_outcome_beyond_max_depth_witness :
  ∃ trace r,
    web_execution Web.kite "http://s/" 0 1 trace r
    ∧ joined r = true
    ∧ (∀ n, web_walk Web.kite "http://s/" n "http://s/a" → 0 < Z.of_nat n)
    ∧ (∀ u depth, Start u depth ∈ trace → depth ≤ 0)
    ∧ ("http://s/a" ∉ started trace)
    ∧ (∀ o, o ∈ results (spider r) → o_url o ≠ "http://s/a").
Proof.
  run_web (replicate 9 0%nat). split; [reflexivity|].
  assert (∀ n, web_walk Web.kite "http://s/" n "http://s/a" → 0 < Z.of_nat n) as Hfar.
  { intros [|n] Hw; [|lia]. by apply walk_zero in Hw. }
  split; [exact Hfar|].
  apply (no_outcome_beyond_max_depth
           Web.urljoin Web.urldefrag Web.urlparse Web.BeautifulSoup
           (Web.request Web.kite) "http://s/" 0 1); [|exact Hfar].
  apply web_run_execution with (schedule := replicate 9 0%nat).
  vm_compute; reflexivity.
Defined.

(** Two workers on [diamond], one of them held up in the GET of
    [http://s/c] while the other goes through [a], [d], [b] and [e]. *)
Abbreviation held_up :=
  ([0; 0; 1]%nat ++ replicate 27 0%nat ++ replicate 7 1%nat).

Lemma join_returns_at_quiescence_witness :
  ∃ trace r,
    web_execution Web.diamond "http://s/" 3 2 trace r
    ∧ tasks r = [Waiting; Waiting]
    ∧ (joined r = true
       ↔ Queue.items (queue (spider r)) = []
         ∧ Forall (λ t, t = Waiting) (tasks r))
    ∧ (∀ i url depth todo,
         tasks r !! i = Some (Fetching url depth todo) → joined r = false)
    ∧ (joined r = true →
       ∀ events r',
         ¬ step Web.urljoin Web.urldefrag Web.urlparse Web.BeautifulSoup
                (Web.request Web.diamond) r events r')
    ∧ (0 < 2 → joined r = false →
       ∃ events r',
         step Web.urljoin Web.urldefrag Web.urlparse Web.BeautifulSoup
              (Web.request Web.diamond) r events r')
    ∧ (∀ n r',
         steps Web.urljoin Web.urldefrag Web.urlparse Web.BeautifulSoup
               (Web.request Web.diamond) r n r' →
         (n ≤ potential Web.urljoin Web.urldefrag Web.urlparse
                        Web.BeautifulSoup (Web.request Web.diamond)
                        "http://s/" 3 r)%nat).
Proof.
  run_web held_up. split; [reflexivity|].
  eapply (join_returns_at_quiescence
           Web.urljoin Web.urldefrag Web.urlparse Web.BeautifulSoup
           (Web.request Web.diamond) "http://s/" 3 2).
  apply web_run_execution with (schedule := held_up).
  vm_compute; reflexivity.
Defined.

(** A seed that [is_valid] refuses is probed all the same, and a spider
    without workers is built like any other. *)
Lemma invalid_configuration_accepted :
  is_valid Web.urlparse "ftp://files.example/pub/" = Some false
  ∧ (∃ trace r,
       web_execution [] "ftp://files.example/pub/" 2 1 trace r
       ∧ trace = [Put "ftp://files.example/pub/" 0;
                  Start "ftp://files.example/pub/" 0]
       ∧ tasks r = [Fetching "ftp://files.example/pub/" 0 methods])
  ∧ tasks (start_run (init "http://s/" 2 (-3))) = []
  ∧ Queue.items (queue (init "http://s/" 2 (-3))) = [("http://s/", 0)].
Proof.
  split; [reflexivity|]. split; [|by split].
  run_web [0%nat]. by split.
Qed.

(** On [kite] with depth bound 1 the page [b] is discovered by [c] and
    by [a]; both items are skipped and [b] is never processed. *)
Lemma discovered_twice_never_processed :
  "http://s/b" ∈ web_links Web.kite "http://s/a"
  ∧ "http://s/b" ∈ web_links Web.kite "http://s/c"
  ∧ ∃ trace r,
      web_execution Web.kite "http://s/" 1 1 trace r
      ∧ trace = [Put "http://s/" 0; Start "http://s/" 0;
                 Put "http://s/c" 1; Put "http://s/a" 1;
                 Start "http://s/c" 1; Put "http://s/b" 2;
                 Start "http://s/a" 1; Put "http://s/b" 2;
                 Skip "http://s/b" 2; Skip "http://s/b" 2]
      ∧ joined r = true
      ∧ "http://s/b" ∉ started trace.
Proof.
  split; [decided|]. split; [decided|].
  run_web (replicate 23 0%nat).
  split; [reflexivity|]. split; [reflexivity|]. decided.
Qed.

Lemma duplicate_discovery_skipped_witness :
  ∃ trace r,
    web_execution Web.kite "http://s/" 2 1 trace r
    ∧ trace = [Put "http://s/" 0; Start "http://s/" 0;
               Put "http://s/c" 1; Put "http://s/a" 1;
               Start "http://s/c" 1; Put "http://s/b" 2;
               Start "http://s/a" 1; Put "http://s/b" 2;
               Start "http://s/b" 2; Skip "http://s/b" 2]
    ∧ NoDup (started trace)
    ∧ (∀ url depth,
         Skip url depth ∈ trace → url ∈ started trace ∨ 2 < depth)
    ∧ (joined r = true →
       ∀ url depth, Put url depth ∈ trace → depth ≤ 2 → url ∈ started trace).
Proof.
  run_web (replicate 29 0%nat). split; [reflexivity|].
  apply (duplicate_discovery_skipped
           Web.urljoin Web.urldefrag Web.urlparse Web.BeautifulSoup
           (Web.request Web.kite) "http://s/" 2 1).
  apply web_run_execution with (schedule := replicate 29 0%nat).
  vm_compute; reflexivity.
Defined.

(** [diamond] with depth bound 3. One worker reaches [b] at depth 2 and
    goes on to [e]; with two workers and the schedule [held_up], [b] is
    first popped at depth 3, its link is put at depth 4 and [e] is never
    probed. *)
Lemma results_depend_on_interleaving :
  ∃ trace1 r1 trace2 r2,
    web_execution Web.diamond "http://s/" 3 1 trace1 r1
    ∧ web_execution Web.diamond "http://s/" 3 2 trace2 r2
    ∧ joined r1 = true
    ∧ joined r2 = true
    ∧ ("http://s/e", GET) ∈ pairs (results (spider r1))
    ∧ (("http://s/e", GET) ∉ pairs (results (spider r2)))
    ∧ started trace1 = ["http://s/"; "http://s/c"; "http://s/a";
                        "http://s/b"; "http://s/d"; "http://s/e"]
    ∧ started trace2 = ["http://s/"; "http://s/c"; "http://s/a";
                        "http://s/d"; "http://s/b"].
Proof.
  eexists _, _, _, _.
  split; [apply web_run_execution with (schedule := replicate 43 0%nat);
          vm_compute; reflexivity|].
  split; [apply web_run_execution with (schedule := held_up);
          vm_compute; reflexivity|].
  split; [reflexivity|]. split; [reflexivity|].
  split; [decided|]. split; [decided|]. by split.
Qed.

(** Two workers on [kite], the second taking [c] while the first is
    still busy with the seed. *)
Abbreviation side_by_side :=
  ([0; 0; 1]%nat ++ replicate 6 0%nat ++ replicate 6 1%nat
   ++ replicate 13 0%nat ++ [1%nat]).

Lemma results_determined_by_visited_witness :
  ∃ trace1 r1 trace2 r2,
    web_execution Web.kite "http://s/" 2 1 trace1 r1
    ∧ web_execution Web.kite "http://s/" 2 2 trace2 r2
    ∧ joined r1 = true
    ∧ joined r2 = true
    ∧ visited (spider r1) = visited (spider r2)
    ∧ ∀ url method,
        ((url, method) ∈ pairs (results (spider r1))
         ↔ url ∈ visited (spider r1)
           ∧ is_Some (web_fetch Web.kite url method)
           ∧ method ∈ attempted Web.urljoin Web.urldefrag Web.urlparse
                                Web.BeautifulSoup (Web.request Web.kite) url)
        ∧ ((url, method) ∈ pairs (results (spider r1))
           → ∃ n, Z.of_nat n ≤ 2 ∧ web_walk Web.kite "http://s/" n url)
        ∧ ((url, method) ∈ pairs (results (spider r1))
           ↔ (url, method) ∈ pairs (results (spider r2))).
Proof.
  eexists _, _, _, _.
  split; [apply web_run_execution with (schedule := replicate 29 0%nat);
          vm_compute; reflexivity|].
  split; [apply web_run_execution with (schedule := side_by_side);
          vm_compute; reflexivity|].
  split; [reflexivity|]. split; [reflexivity|]. split; [vm_compute; reflexivity|].
  eapply (results_determined_by_visited
           Web.urljoin Web.urldefrag Web.urlparse Web.BeautifulSoup
           (Web.request Web.kite) "http://s/" 2 1 2).
  - apply web_run_execution with (schedule := replicate 29 0%nat).
    vm_compute; reflexivity.
  - apply web_run_execution with (schedule := side_by_side).
    vm_compute; reflexivity.
  - reflexivity.
  - reflexivity.
  - vm_compute; reflexivity.
Defined.

Lemma process_url_skip_is_noop_witness :
  let fresh := init "http://s/" 2 1 in
  let seen := add_visited fresh "http://s/" in
  ("http://s/" ∈ visited seen ∨ max_depth seen < 0)
  ∧ process_url Web.urljoin Web.urldefrag Web.urlparse Web.BeautifulSoup
                (Web.request Web.kite) seen "http://s/" 0 = Normal seen
  ∧ ("http://s/b" ∈ visited fresh ∨ max_depth fresh < 3)
  ∧ process_url Web.urljoin Web.urldefrag Web.urlparse Web.BeautifulSoup
                (Web.request Web.kite) fresh "http://s/b" 3 = Normal fresh.
Proof.
  intros fresh seen.
  assert ("http://s/" ∈ visited seen ∨ max_depth seen < 0) as H1.
  { left. decided. }
  assert ("http://s/b" ∈ visited fresh ∨ max_depth fresh < 3) as H2.
  { right. simpl. lia. }
  split; [exact H1|]. split; [|split; [exact H2|]].
  - exact (process_url_skip_is_noop
             Web.urljoin Web.urldefrag Web.urlparse Web.BeautifulSoup
             (Web.request Web.kite) seen "http://s/" 0 H1).
  - exact (process_url_skip_is_noop
             Web.urljoin Web.urldefrag Web.urlparse Web.BeautifulSoup
             (Web.request Web.kite) fresh "http://s/b" 3 H2).
Defined.





(** ** Further runs *)

(** The seed of [broken] carries a reference [urljoin] refuses: the turn
    of GET records its result, the exception leaves [process_url] before
    any link is put and before the other methods are tried, and the
    handler in [worker] marks the item done. *)
Example exception_marks_item_done :
  ∃ trace r,
    web_execution Web.broken "http://s/" 2 1 trace r
    ∧ trace = [Put "http://s/" 0; Start "http://s/" 0]
    ∧ pairs (results (spider r)) = [("http://s/", GET)]
    ∧ tasks r = [Waiting]
    ∧ joined r = true.
Proof.
  run_web [0; 0]%nat. by repeat split.
Qed.

(** One worker on [diamond] takes exactly as many steps as the potential
    of the initial state allows. *)
Example single_worker_meets_bound :
  potential Web.urljoin Web.urldefrag Web.urlparse Web.BeautifulSoup
            (Web.request Web.diamond) "http://s/" 3
            (start_run (init "http://s/" 3 1)) = 43%nat
  ∧ ∃ trace r,
      web_execution Web.diamond "http://s/" 3 1 trace r
      ∧ web_run Web.diamond "http://s/" 3 1 (replicate 43 0%nat) = Some (trace, r)
      ∧ joined r = true.
Proof.
  split; [vm_compute; reflexivity|].
  run_web (replicate 43 0%nat). split; [vm_compute; reflexivity|reflexivity].
Qed.

(** ** Runs for the further properties *)

Abbreviation web_step site :=
  (step Web.urljoin Web.urldefrag Web.urlparse Web.BeautifulSoup
        (Web.request site)).

Abbreviation web_steps site :=
  (steps Web.urljoin Web.urldefrag Web.urlparse Web.BeautifulSoup
         (Web.request site)).

Abbreviation web_exec site :=
  (exec Web.urljoin Web.urldefrag Web.urlparse Web.BeautifulSoup
        (Web.request site)).

Abbreviation web_exec_step site :=
  (exec_step Web.urljoin Web.urldefrag Web.urlparse Web.BeautifulSoup
             (Web.request site)).

Abbreviation web_process_url site :=
  (process_url Web.urljoin Web.urldefrag Web.urlparse Web.BeautifulSoup
               (Web.request site)).

Abbreviation web_raises site :=
  (raises Web.urljoin Web.urldefrag Web.urlparse Web.BeautifulSoup
          (Web.request site)).

Abbreviation web_attempted site :=
  (attempted Web.urljoin Web.urldefrag Web.urlparse Web.BeautifulSoup
             (Web.request site)).

Abbreviation web_recorded site := (recorded (Web.request site)).

Abbreviation web_potential site :=
  (potential Web.urljoin Web.urldefrag Web.urlparse Web.BeautifulSoup
             (Web.request site)).

Abbreviation web_within site :=
  (within Web.urljoin Web.urldefrag Web.urlparse Web.BeautifulSoup
          (Web.request site)).

Abbreviation web_extract_links :=
  (extract_links Web.urljoin Web.urldefrag Web.urlparse Web.BeautifulSoup).

(** The seed of [kite] is in the hands of the worker, its two links are
    queued. *)
Lemma task_done_never_raises_witness :
  ∃ trace r,
    web_execution Web.kite "http://s/" 2 1 trace r
    ∧ tasks r = [Fetching "http://s/" 0 [POST; PUT; DELETE; HEAD; OPTIONS]]
    ∧ 0 ≤ Queue.unfinished_tasks (queue (spider r))
    ∧ ∀ i,
        (tasks r !! i = Some Waiting ∧ Queue.items (queue (spider r)) ≠ []
         ∨ ∃ url depth method rest,
             tasks r !! i = Some (Fetching url depth (method :: rest))) →
        ∃ events r',
          web_exec_step Web.kite r i = Some (events, r')
          ∧ web_step Web.kite r events r'.
Proof.
  run_web [0; 0]%nat. split; [reflexivity|].
  eapply (task_done_never_raises
            Web.urljoin Web.urldefrag Web.urlparse Web.BeautifulSoup
            (Web.request Web.kite) "http://s/" 2 1).
  apply web_run_execution with (schedule := [0; 0]%nat).
  vm_compute; reflexivity.
Defined.

(** [process_url] on the seed of [kite], as the worker calls it: the item
    popped, the queue empty. *)
Lemma process_url_effect_witness :
  let self := set_queue (init "http://s/" 2 1) (Queue.mk [] 1) in
  skips self "http://s/" 0 = false
  ∧ web_process_url Web.kite self "http://s/" 0
    = (if web_raises Web.kite "http://s/" GET then Raised else Normal)
        (mkSpider (start_url self) (max_depth self) (concurrency self)
           ({[ "http://s/" ]} ∪ visited self)
           (results self
            ++ flat_map (web_recorded Web.kite "http://s/")
                        (web_attempted Web.kite "http://s/"))
           (Queue.mk
              (Queue.items (queue self)
               ++ linked (elements (web_links Web.kite "http://s/")) 0)
              (Queue.unfinished_tasks (queue self)
               + Z.of_nat (size (web_links Web.kite "http://s/")))))
  ∧ Queue.items (queue (after_turn (web_process_url Web.kite self "http://s/" 0)))
    = [("http://s/c", 1); ("http://s/a", 1)].
Proof.
  intros self.
  assert (skips self "http://s/" 0 = false) as Hskip by reflexivity.
  split; [exact Hskip|]. split; [|vm_compute; reflexivity].
  exact (process_url_effect
           Web.urljoin Web.urldefrag Web.urlparse Web.BeautifulSoup
           (Web.request Web.kite) self "http://s/" 0 Hskip).
Defined.

Lemma worker_runs_process_url_witness :
  let r := start_run (init "http://s/" 2 1) in
  let q := Queue.mk [] 1 in
  ∃ self' trace',
    tasks r !! 0%nat = Some Waiting
    ∧ Queue.get (queue (spider r)) = Some (("http://s/", 0), q)
    ∧ finish (after_turn
                (web_process_url Web.kite (set_queue (spider r) q) "http://s/" 0))
      = Some self'
    ∧ web_exec Web.kite r [Put "http://s/" 0]
        (replicate (S (if skips (spider r) "http://s/" 0 then 0
                       else length (web_attempted Web.kite "http://s/")))
                   0%nat)
      = Some (trace', mkRun self' (tasks r))
    ∧ Queue.items (queue self') = [("http://s/c", 1); ("http://s/a", 1)]
    ∧ Queue.unfinished_tasks (queue self') = 2.
Proof.
  intros r q.
  assert (tasks r !! 0%nat = Some Waiting) as Hi by reflexivity.
  assert (Queue.get (queue (spider r)) = Some (("http://s/", 0), q)) as Hget
    by reflexivity.
  destruct (finish (after_turn
              (web_process_url Web.kite (set_queue (spider r) q) "http://s/" 0)))
    as [self'|] eqn:Hfin; [|by vm_compute in Hfin].
  destruct (worker_runs_process_url
              Web.urljoin Web.urldefrag Web.urlparse Web.BeautifulSoup
              (Web.request Web.kite) r [Put "http://s/" 0] 0%nat
              "http://s/" 0 q self' Hi Hget Hfin) as [trace' Hexec].
  exists self', trace'. split; [exact Hi|]. split; [exact Hget|].
  split; [reflexivity|]. split; [exact Hexec|].
  vm_compute in Hfin. injection Hfin as <-. by split.
Defined.

Lemma log_is_append_only_witness :
  ∃ trace r trace' r',
    web_run Web.kite "http://s/" 2 1 (replicate 8 0%nat) = Some (trace, r)
    ∧ web_exec Web.kite r trace (replicate 13 0%nat) = Some (trace', r')
    ∧ web_steps Web.kite r 13 r'
    ∧ length (results (spider r)) = 6%nat
    ∧ length (results (spider r')) = 18%nat
    ∧ results (spider r) `prefix_of` results (spider r')
    ∧ visited (spider r) ⊆ visited (spider r')
    ∧ start_url (spider r') = start_url (spider r)
    ∧ max_depth (spider r') = max_depth (spider r)
    ∧ concurrency (spider r') = concurrency (spider r).
Proof.
  eexists _, _, _, _. split; [vm_compute; reflexivity|].
  split; [vm_compute; reflexivity|].
  match goal with
  | |- web_steps _ ?r _ ?r' ∧ _ =>
      assert (web_steps Web.kite r 13 r') as Hsteps
  end.
  { eapply (exec_steps Web.urljoin Web.urldefrag Web.urlparse Web.BeautifulSoup
              (Web.request Web.kite) (replicate 13 0%nat) _ []).
    vm_compute; reflexivity. }
  split; [exact Hsteps|]. split; [reflexivity|]. split; [reflexivity|].
  exact (log_is_append_only
           Web.urljoin Web.urldefrag Web.urlparse Web.BeautifulSoup
           (Web.request Web.kite) _ _ _ Hsteps).
Defined.


Lemma no_pair_logged_twice_witness :
  ∃ trace r,
    web_execution Web.diamond "http://s/" 3 2 trace r
    ∧ length (results (spider r)) = 30%nat
    ∧ size (visited (spider r)) = 5%nat
    ∧ size (web_within Web.diamond "http://s/" (Z.to_nat 3)) = 6%nat
    ∧ NoDup (pairs (results (spider r)))
    ∧ (length (results (spider r)) ≤ 6 * size (visited (spider r)))%nat
    ∧ (length (results (spider r))
       ≤ 6 * size (web_within Web.diamond "http://s/" (Z.to_nat 3)))%nat.
Proof.
  run_web held_up. split; [reflexivity|]. split; [vm_compute; reflexivity|].
  split; [vm_compute; reflexivity|].
  eapply (no_pair_logged_twice
            Web.urljoin Web.urldefrag Web.urlparse Web.BeautifulSoup
            (Web.request Web.diamond) "http://s/" 3 2).
  apply web_run_execution with (schedule := held_up).
  vm_compute; reflexivity.
Defined.

Lemma extraction_failure_ends_processing_witness :
  ∃ trace r,
    web_execution Web.broken "http://s/" 2 1 trace r
    ∧ joined r = true
    ∧ web_raises Web.broken "http://s/" GET = true
    ∧ (∀ o, o ∈ results (spider r) → o_url o = "http://s/" → o_method o = GET)
    ∧ web_links Web.broken "http://s/" = ∅.
Proof.
  run_web [0; 0]%nat. split; [reflexivity|].
  assert (web_raises Web.broken "http://s/" GET = true) as Hr
    by (vm_compute; reflexivity).
  split; [exact Hr|].
  eapply (extraction_failure_ends_processing
            Web.urljoin Web.urldefrag Web.urlparse Web.BeautifulSoup
            (Web.request Web.broken) "http://s/" 2 1); [|exact Hr].
  apply web_run_execution with (schedule := [0; 0]%nat).
  vm_compute; reflexivity.
Defined.

Lemma negative_depth_probes_nothing_witness :
  ∃ trace r,
    web_execution Web.kite "http://s/" (-1) 1 trace r
    ∧ -1 < 0
    ∧ trace = [Put "http://s/" 0; Skip "http://s/" 0]
    ∧ joined r = true
    ∧ started trace = []
    ∧ visited (spider r) = ∅
    ∧ results (spider r) = [].
Proof.
  run_web [0%nat]. split; [lia|]. split; [reflexivity|]. split; [reflexivity|].
  apply (negative_depth_probes_nothing
           Web.urljoin Web.urldefrag Web.urlparse Web.BeautifulSoup
           (Web.request Web.kite) "http://s/" (-1) 1); [lia|].
  apply web_run_execution with (schedule := [0%nat]).
  vm_compute; reflexivity.
Defined.

Lemma seed_is_processed_first_witness :
  ∃ trace r,
    web_execution Web.diamond "http://s/" 3 2 trace r
    ∧ started trace = ["http://s/"; "http://s/c"; "http://s/a";
                       "http://s/d"; "http://s/b"]
    ∧ ∀ url rest, started trace = url :: rest → url = "http://s/".
Proof.
  run_web held_up. split; [reflexivity|].
  eapply (seed_is_processed_first
           Web.urljoin Web.urldefrag Web.urlparse Web.BeautifulSoup
           (Web.request Web.diamond) "http://s/" 3 2).
  apply web_run_execution with (schedule := held_up).
  vm_compute; reflexivity.
Defined.

Lemma extract_links_without_references_witness :
  let html := "<p>no link</p><a name='top'>x</a><img src=''><br>" in
  ∃ soup,
    Web.BeautifulSoup html = Some soup
    ∧ length (find_all ["a"; "link"; "script"; "img"] soup) = 2%nat
    ∧ (∀ tag raw,
         tag ∈ find_all ["a"; "link"; "script"; "img"] soup →
         tag_get (tag_attrs tag) (link_attr tag) = Some raw →
         truthy raw = false)
    ∧ web_extract_links html "http://s/" = Some ∅.
Proof.
  intros html. eexists. split; [vm_compute; reflexivity|].
  split; [reflexivity|].
  match goal with
  | |- ?H ∧ _ => assert H as Hnone
  end.
  { intros tag raw Hin Hget. vm_compute in Hin.
    apply elem_of_cons in Hin as [->|Hin]; [by vm_compute in Hget|].
    apply list_elem_of_singleton in Hin as ->.
    vm_compute in Hget. by injection Hget as <-. }
  split; [exact Hnone|].
  apply (extract_links_without_references
           Web.urljoin Web.urldefrag Web.urlparse Web.BeautifulSoup
           html "http://s/" _ eq_refl Hnone).
Defined.

Lemma run_reaches_quiescence_witness :
  ∃ trace r,
    web_execution Web.diamond "http://s/" 3 2 trace r
    ∧ 0 < 2
    ∧ web_potential Web.diamond "http://s/" 3 r = 43%nat
    ∧ ∃ n r',
        web_steps Web.diamond r n r'
        ∧ joined r' = true
        ∧ (n ≤ web_potential Web.diamond "http://s/" 3 r)%nat.
Proof.
  run_web (@nil nat). split; [lia|]. split; [vm_compute; reflexivity|].
  eapply (run_reaches_quiescence
            Web.urljoin Web.urldefrag Web.urlparse Web.BeautifulSoup
            (Web.request Web.diamond) "http://s/" 3 2); [lia|].
  apply web_run_execution with (schedule := @nil nat).
  vm_compute; reflexivity.
Defined.

Lemma single_worker_is_breadth_first_witness :
  ∃ trace r,
    web_execution Web.diamond "http://s/" 3 1 trace r
    ∧ joined r = true
    ∧ (∀ url depth n,
         Start url depth ∈ trace →
         web_walk Web.diamond "http://s/" n url → depth ≤ Z.of_nat n)
    ∧ (joined r = true →
       (∀ url,
          url ∈ visited (spider r)
          ↔ ∃ n, Z.of_nat n ≤ 3 ∧ web_walk Web.diamond "http://s/" n url)
       ∧ (∀ url method,
            (url, method) ∈ pairs (results (spider r))
            ↔ (∃ n, Z.of_nat n ≤ 3 ∧ web_walk Web.diamond "http://s/" n url)
              ∧ is_Some (web_fetch Web.diamond url method)
              ∧ method ∈ web_attempted Web.diamond url)).
Proof.
  run_web (replicate 43 0%nat). split; [reflexivity|].
  apply (single_worker_is_breadth_first
           Web.urljoin Web.urldefrag Web.urlparse Web.BeautifulSoup
           (Web.request Web.diamond) "http://s/" 3).
  apply web_run_execution with (schedule := replicate 43 0%nat).
  vm_compute; reflexivity.
Defined.

Lemma single_worker_log_is_largest_witness :
  ∃ trace r trace1 r1,
    web_execution Web.diamond "http://s/" 3 2 trace r
    ∧ web_execution Web.diamond "http://s/" 3 1 trace1 r1
    ∧ joined r1 = true
    ∧ length (results (spider r)) = 30%nat
    ∧ length (results (spider r1)) = 36%nat
    ∧ visited (spider r) ⊆ visited (spider r1)
    ∧ ∀ url method,
        (url, method) ∈ pairs (results (spider r)) →
        (url, method) ∈ pairs (results (spider r1)).
Proof.
  eexists _, _, _, _.
  split; [apply web_run_execution with (schedule := held_up);
          vm_compute; reflexivity|].
  split; [apply web_run_execution with (schedule := replicate 43 0%nat);
          vm_compute; reflexivity|].
  split; [reflexivity|]. split; [reflexivity|]. split; [reflexivity|].
  eapply (single_worker_log_is_largest
            Web.urljoin Web.urldefrag Web.urlparse Web.BeautifulSoup
            (Web.request Web.diamond) "http://s/" 3 2).
  - apply web_run_execution with (schedule := held_up).
    vm_compute; reflexivity.
  - apply web_run_execution with (schedule := replicate 43 0%nat).
    vm_compute; reflexivity.
  - reflexivity.
Defined.

Lemma only_valid_links_are_queued_witness :
  ∃ trace r,
    web_execution Web.kite "http://s/" 2 1 trace r
    ∧ joined r = true
    ∧ (∀ url depth,
         Put url depth ∈ trace →
         url = "http://s/" ∨ is_valid Web.urlparse url = Some true)
    ∧ (∀ url depth,
         Start url depth ∈ trace →
         url = "http://s/" ∨ is_valid Web.urlparse url = Some true)
    ∧ (∀ o, o ∈ results (spider r) →
         o_url o = "http://s/" ∨ is_valid Web.urlparse (o_url o) = Some true).
Proof.
  run_web (replicate 29 0%nat). split; [reflexivity|].
  apply (only_valid_links_are_queued
           Web.urljoin Web.urldefrag Web.urlparse Web.BeautifulSoup
           (Web.request Web.kite) "http://s/" 2 1).
  apply web_run_execution with (schedule := replicate 29 0%nat).
  vm_compute; reflexivity.
Defined.
